(** * CNAScraper: a shallow embedding of [scraper.py]

    The script walks the table of contents of a Pressbooks site, fetches every
    chapter and front-matter page, cleans its text, splits it into overlapping
    chunks and tags every chunk with the part, the chapter and the page it
    came from.

    Conventions of the embedding.
    - A Python [str] is the list of its characters, each one its Unicode
      code point; ASCII literals are written [lit "..."]. Whitespace is the
      class of [str.isspace], given in full. Which characters above 127 are
      letters or digits is a table of the interpreter: the functions that
      read it take it as the Section variable [unicode_alnum].
    - A parsed page (a BeautifulSoup tree) is a [node]: only the tag name, the
      [class] tokens and the [href] attribute are kept, since the script reads
      nothing else.
    - The network and [urllib.parse.urljoin] are outside the script: the
      functions that use them take them as Section variables. Both can
      raise.
    - [print] calls and the final [json.dump] are left out. *)

From Stdlib Require Import Ascii String.
From stdpp Require Import base numbers list strings gmap pretty.

(** A character: its code point. *)
Abbreviation char := N.
Abbreviation str := (list N).

(** An ASCII literal of type [str]. *)
Definition lit (s : string) : str := N_of_ascii <$> list_ascii_of_string s.
Arguments lit : simpl never.

Definition LF : char := 10%N.
Definition SPACE : char := 32%N.
Definition HYPHEN : char := 45%N.
Definition SLASH : char := 47%N.
Definition UNDERSCORE : char := 95%N.

(** ** Python strings *)

(** [c.isspace()], which is also the class [\s] of [re] on [str] patterns and
    what [str.strip] removes: the control characters 9-13 and 28-31, the
    space, U+0085, U+00A0, U+1680, U+2000-U+200A, U+2028, U+2029, U+202F,
    U+205F and U+3000. *)
Definition isspace (c : char) : bool :=
  (((9 <=? c) && (c <=? 13)) || ((28 <=? c) && (c <=? 32))
   || (c =? 133) || (c =? 160) || (c =? 5760)
   || ((8192 <=? c) && (c <=? 8202))
   || (c =? 8232) || (c =? 8233) || (c =? 8239) || (c =? 8287) || (c =? 12288))%N.

Section Unicode.
(** [c.isalnum()] for a character above 127, as the Unicode database of the
    interpreter has it. *)
Variable unicode_alnum : char → bool.

(** [c.isalnum()] *)
Definition isalnum (c : char) : bool :=
  if (c <? 128)%N then
    (((48 <=? c) && (c <=? 57)) || ((65 <=? c) && (c <=? 90))
     || ((97 <=? c) && (c <=? 122)))%N
  else unicode_alnum c.

(** The class [\w] of [re] on [str] patterns: the alphanumeric characters
    and the underscore. *)
Definition is_word (c : char) : bool := isalnum c || (c =? UNDERSCORE)%N.

(** The class [[\w-]]. *)
Definition is_slug_char (c : char) : bool := is_word c || (c =? HYPHEN)%N.

End Unicode.

Fixpoint lstrip (s : str) : str :=
  match s with
  | c :: s' => if isspace c then lstrip s' else s
  | [] => []
  end.

Definition rstrip (s : str) : str := rev (lstrip (rev s)).

(** [s.strip()] *)
Definition strip (s : str) : str := rstrip (lstrip s).

(** [s.startswith(p)] *)
Fixpoint startswith (p s : str) : bool :=
  match p, s with
  | [], _ => true
  | a :: p', b :: s' => (a =? b)%N && startswith p' s'
  | _ :: _, [] => false
  end.

(** [sub in s] *)
Fixpoint contains (sub s : str) : bool :=
  startswith sub s ||
  match s with
  | [] => false
  | _ :: s' => contains sub s'
  end.

(** [sep.join(parts)] *)
Fixpoint join (sep : str) (parts : list str) : str :=
  match parts with
  | [] => []
  | [p] => p
  | p :: rest => p ++ sep ++ join sep rest
  end.

(** [re.sub(r'\s+', ' ', s)]: every maximal run of whitespace becomes one
    space. [in_run] tells that the previous character was whitespace. *)
Fixpoint sub_whitespace (in_run : bool) (s : str) : str :=
  match s with
  | [] => []
  | c :: s' =>
      if isspace c then
        if in_run then sub_whitespace true s'
        else SPACE :: sub_whitespace true s'
      else c :: sub_whitespace false s'
  end.

(** The truth value of a string: [""] is falsy. *)
Definition truthy (s : str) : bool :=
  match s with [] => false | _ :: _ => true end.

(** ** Exceptions *)

(** The script catches [requests.exceptions.RequestException] around each
    fetch and nothing else; every other exception is [OtherError]. *)
Inductive exn : Type :=
| RequestException (what : str)
| OtherError (what : str).

Inductive result (A : Type) : Type :=
| Return (a : A)
| Raise (e : exn).
Arguments Return {A} a.
Arguments Raise {A} e.

Global Instance result_ret : MRet result := λ A a, Return a.

Global Instance result_bind : MBind result := λ A B k m,
  match m with
  | Return a => k a
  | Raise e => Raise e
  end.

(** ** Parsed pages *)

Inductive node : Type :=
| NavigableString (text : str)
| Tag (name : str) (class_ : list str) (href : option str) (contents : list node).

Definition contents_of (n : node) : list node :=
  match n with
  | NavigableString _ => []
  | Tag _ _ _ cs => cs
  end.

(** All the nodes below [n], in document order. *)
Fixpoint descendants (n : node) : list node :=
  match n with
  | NavigableString _ => []
  | Tag _ _ _ cs =>
      (fix below (l : list node) : list node :=
         match l with
         | [] => []
         | c :: l' => c :: descendants c ++ below l'
         end) cs
  end.

Definition is_tag (name : str) (n : node) : bool :=
  match n with
  | Tag nm _ _ _ => bool_decide (nm = name)
  | NavigableString _ => false
  end.

(** [cls in tag.get('class', [])] *)
Definition has_class (cls : str) (n : node) : bool :=
  match n with
  | Tag _ classes _ _ => bool_decide (cls ∈ classes)
  | NavigableString _ => false
  end.

(** [tag.get('href')] *)
Definition get_href (n : node) : option str :=
  match n with
  | Tag _ _ h _ => h
  | NavigableString _ => None
  end.

(** [tag.find_all(name)] *)
Definition find_all (name : str) (n : node) : list node :=
  List.filter (is_tag name) (descendants n).

(** [tag.find_all(name, recursive=False)] *)
Definition find_all_children (name : str) (n : node) : list node :=
  List.filter (is_tag name) (contents_of n).

(** [tag.find(name, class_=cls)]: the first match in document order. *)
Definition find (name cls : str) (n : node) : option node :=
  head (List.filter (λ d, is_tag name d && has_class cls d) (descendants n)).

(** The strings below a node, in document order. Called on a string itself,
    it is that string. *)
Definition strings (n : node) : list str :=
  match n with
  | NavigableString t => [t]
  | Tag _ _ _ _ =>
      omap (λ d, match d with NavigableString t => Some t | Tag _ _ _ _ => None end)
           (descendants n)
  end.

(** [tag.get_text(separator=sep, strip=True)]: every string is stripped, the
    empty ones are dropped, the rest is joined with [sep]. *)
Definition get_text (sep : str) (n : node) : str :=
  join sep (List.filter truthy (map strip (strings n))).

(** An HTTP answer: its status and its body, already parsed. *)
Record response : Type := { status_code : nat; soup : node }.

(** [response.raise_for_status()]: an [HTTPError], which is a
    [RequestException], for a 4xx or 5xx status. *)
Definition raise_for_status (r : response) : result response :=
  if (400 <=? status_code r) && (status_code r <? 600)
  then Raise (RequestException (lit "HTTPError"))
  else Return r.

(** ** Phase 1: the table of contents *)

Record location : Type := { url : str; part_title : str }.

Global Instance location_eq_dec : EqDecision location.
Proof. solve_decision. Defined.

Record walk_state : Type :=
  { structured_urls : list location; current_part_title : str }.

(** The name a part header gives, when the list item has one: the text of the
    [span.part-text] inside the first [div.toc-part-header]. *)
Definition part_text (li : node) : option str :=
  match find (lit "div") (lit "toc-part-header") li with
  | Some header =>
      match find (lit "span") (lit "part-text") header with
      | Some span => Some (get_text [] span)
      | None => None
      end
  | None => None
  end.

(** Lines 33-36: the part title after looking at one top-level item. *)
Definition update_part_title (current : str) (li : node) : str :=
  if has_class (lit "part") li then
    match part_text li with
    | Some title => title
    | None => current
    end
  else current.

(** Line 42: the test on the reference as it is written in the page. *)
Definition accepted_href (href : option str) : bool :=
  match href with
  | Some h =>
      truthy h && (contains (lit "/chapter/") h || contains (lit "/front-matter/") h)
  | None => false
  end.

Arguments accepted_href : simpl never.

Section Walker.
(** [urllib.parse.urljoin]. It raises [ValueError] on a reference that it
    cannot split, and line 43 stands outside every [try]. *)
Variable urljoin : str → str → result str.
Variable base_url : str.

(** Lines 39-47: the records one top-level item adds. An exception of
    [urljoin] ends the loop. *)
Fixpoint item_links (title : str) (links : list node) : result (list location) :=
  match links with
  | [] => Return []
  | a_tag :: rest =>
      match get_href a_tag with
      | Some href =>
          if accepted_href (Some href)
          then full_url ← urljoin base_url href;
               more ← item_links title rest;
               Return ({| url := full_url; part_title := title |} :: more)
          else item_links title rest
      | None => item_links title rest
      end
  end.

(** One turn of the loop of line 31. *)
Definition walk_item (st : walk_state) (li : node) : result walk_state :=
  let title := update_part_title (current_part_title st) li in
  added ← item_links title (find_all (lit "a") li);
  Return {| structured_urls := structured_urls st ++ added;
            current_part_title := title |}.

Definition walk_init : walk_state :=
  {| structured_urls := []; current_part_title := lit "General" |}.

(** The loop of line 31 over [items], from the state [st]. *)
Fixpoint walk_items (items : list node) (st : walk_state) : result walk_state :=
  match items with
  | [] => Return st
  | li :: rest => st' ← walk_item st li; walk_items rest st'
  end.

(** Lines 28-47. *)
Definition walk (toc : node) : result walk_state :=
  walk_items (find_all_children (lit "li") toc) walk_init.

(** One turn of the loop of line 52. *)
Definition dedup_step (acc : list location * gset str) (item : location)
  : list location * gset str :=
  let '(unique, seen) := acc in
  if decide (url item ∈ seen) then acc
  else (unique ++ [item], seen ∪ {[ url item ]}).

(** Lines 50-55. *)
Definition dedup (items : list location) : list location :=
  fst (fold_left dedup_step items ([], ∅)).

(** Lines 28-58: the Walker on the table of contents. *)
Definition walk_toc (toc : node) : result (list location) :=
  st ← walk toc;
  Return (dedup (structured_urls st)).

Variable requests_get : str → result response.

(** Lines 8-58. A [RequestException] of the fetch ends the phase with no
    address; so does a page without [ol.toc]. Every other exception, of the
    fetch or of [urljoin], leaves the function. *)
Definition get_structured_urls : result (list location) :=
  match requests_get base_url ≫= raise_for_status with
  | Raise (RequestException _) => Return []
  | Raise e => Raise e
  | Return response =>
      match find (lit "ol") (lit "toc") (soup response) with
      | None => Return []
      | Some toc => walk_toc toc
      end
  end.

End Walker.

(** ** Phase 2: one page *)

(** Line 78. *)
Definition page_title (section : node) : str :=
  match find (lit "h1") (lit "entry-title") section with
  | Some title_tag => get_text [] title_tag
  | None => lit "No Title Found"
  end.

(** Lines 80-86. *)
Definition text_parts (section : node) : list str :=
  match find (lit "div") (lit "textbox--learning-objectives") section with
  | Some learning_objectives => [get_text (lit " ") learning_objectives]
  | None => []
  end
  ++ map (get_text (lit " ")) (find_all (lit "p") section).

(** Lines 88-89. *)
Definition cleaned_text (section : node) : str :=
  strip (sub_whitespace false (join (lit " ") (text_parts section))).

Section Normalizer.
Variable requests_get : str → result response.

(** Lines 60-91. [None, None] is the answer for a fetch that raised a
    [RequestException] and for a page without [section.chapter]. *)
Definition scrape_and_clean_content (url : str)
  : result (option str * option str) :=
  match requests_get url ≫= raise_for_status with
  | Raise (RequestException _) => Return (None, None)
  | Raise e => Raise e
  | Return response =>
      match find (lit "section") (lit "chapter") (soup response) with
      | None => Return (None, None)
      | Some content_section =>
          Return (Some (page_title content_section),
                  Some (cleaned_text content_section))
      end
  end.

End Normalizer.

(** ** The chapter number *)

(** The longest prefix of [s] made of characters of [p], and the rest. *)
Fixpoint span (p : char → bool) (s : str) : str * str :=
  match s with
  | c :: s' =>
      if p c then let '(run, rest) := span p s' in (c :: run, rest)
      else ([], s)
  | [] => ([], [])
  end.

(** [s] with the prefix [p] removed, when it starts with [p]. *)
Fixpoint remove_prefix (p s : str) : option str :=
  match p, s with
  | [], _ => Some s
  | a :: p', b :: s' => if (a =? b)%N then remove_prefix p' s' else None
  | _ :: _, [] => None
  end.

(** What [/?$] accepts: an optional slash, then the end of the string or a
    line feed that ends the string. *)
Definition chapter_endings : list str := [[]; [SLASH]; [LF]; [SLASH; LF]].

Definition match_end (s : str) : bool := bool_decide (s ∈ chapter_endings).

(** The pattern [/chapter/(G+)/?$] tried at the start of [s], for a class [G]
    of characters given by [group_char]; the answer is group 1. The group is
    greedy, and a shorter group never helps: the character after it would be
    one of the group's, which [/?$] refuses. *)
Definition match_chapter_here (group_char : char → bool) (s : str) : option str :=
  match remove_prefix (lit "/chapter/") s with
  | Some rest =>
      let '(slug, tail) := span group_char rest in
      if truthy slug && match_end tail then Some slug else None
  | None => None
  end.

(** [re.search] with that pattern: the leftmost match. *)
Fixpoint search_chapter (group_char : char → bool) (s : str) : option str :=
  match match_chapter_here group_char s with
  | Some slug => Some slug
  | None =>
      match s with
      | [] => None
      | _ :: s' => search_chapter group_char s'
      end
  end.

(** Lines 93-98, with the pattern [/chapter/([\w-]+)/?$]. *)
Definition extract_chapter_number (unicode_alnum : char → bool) (url : str) : str :=
  match search_chapter (is_slug_char unicode_alnum) url with
  | Some slug => slug
  | None => lit "N/A"
  end.

(** ** Phases 2 and 3: every page *)

Record metadata : Type :=
  { md_part_title : str;
    chapter_number : str;
    title : option str;
    source_url : str;
    chunk_id : str }.

Record chunk_record : Type := { page_content : str; chunk_metadata : metadata }.

(** [not content] for a value that is [None] or a string. *)
Definition falsy (content : option str) : bool :=
  match content with
  | None => true
  | Some s => negb (truthy s)
  end.

Section Pipeline.
Variable unicode_alnum : char → bool.
Variable urljoin : str → str → result str.
Variable requests_get : str → result response.
(** [text_splitter.split_text], of the library [langchain_text_splitters]. *)
Variable split_text : str → list str.

(** Lines 136-146. *)
Definition chunk_records (url_info : location) (title : option str)
    (chunks : list str) : list chunk_record :=
  imap (λ chunk_index chunk,
          {| page_content := chunk;
             chunk_metadata :=
               {| md_part_title := part_title url_info;
                  chapter_number := extract_chapter_number unicode_alnum (url url_info);
                  title := title;
                  source_url := url url_info;
                  chunk_id := lit "chunk_" ++ lit (pretty chunk_index) |} |})
       chunks.

(** Lines 123-146: one turn of the loop of line 122. *)
Definition process_location (all_chunks : list chunk_record) (url_info : location)
  : result (list chunk_record) :=
  '(title, content) ← scrape_and_clean_content requests_get (url url_info);
  if falsy content then Return all_chunks
  else Return (all_chunks
               ++ chunk_records url_info title (split_text (default [] content))).

(** Lines 122-146. *)
Fixpoint main_loop (all_chunks : list chunk_record) (structured_urls : list location)
  : result (list chunk_record) :=
  match structured_urls with
  | [] => Return all_chunks
  | url_info :: rest =>
      all_chunks' ← process_location all_chunks url_info;
      main_loop all_chunks' rest
  end.

(** Lines 100-148: what [main] hands to [json.dump], or [None] when it
    leaves before the loop because phase 1 found nothing. *)
Definition main (base_url : str) : result (option (list chunk_record)) :=
  structured_urls ← get_structured_urls urljoin base_url requests_get;
  match structured_urls with
  | [] => Return None
  | _ :: _ => all_chunks ← main_loop [] structured_urls; Return (Some all_chunks)
  end.

End Pipeline.

(** The address [main] starts from. *)
Definition site_url : str := lit "https://wtcs.pressbooks.pub/nurseassist/".

(** ** Definitions used to state the properties *)

(** The two path patterns of line 42, tried on an address. *)
Definition accepted_address (address : str) : bool :=
  contains (lit "/chapter/") address || contains (lit "/front-matter/") address.

(** [urljoin(base, ref)] where [base] ends with a slash and [ref] is a plain
    relative path (no scheme, no leading slash, no dot segment, no query and
    no fragment): the reference is appended to the base. *)
Definition urljoin_relative_path (base ref : str) : result str :=
  Return (base ++ ref).

(** [sub] occurs in [s]. *)
Definition occurs_in (sub s : str) : Prop := ∃ pre post, s = pre ++ sub ++ post.

(** A table of contents with one item and one link in it. *)
Definition toc_with_link (href : str) : node :=
  Tag (lit "ol") [lit "toc"] None
    [Tag (lit "li") [] None
       [Tag (lit "a") [] (Some href) [NavigableString (lit "Chapter")]]].

(** Why a page gives no content: the fetch raised a [RequestException], the
    server answered with an error status, or the page has no
    [section.chapter]. *)
Inductive no_content (requests_get : str → result response) (url : str) : Prop :=
| fetch_raised what :
    requests_get url = Raise (RequestException what) → no_content requests_get url
| error_status r :
    requests_get url = Return r →
    400 ≤ status_code r < 600 →
    no_content requests_get url
| container_absent r :
    requests_get url = Return r →
    ¬ (400 ≤ status_code r < 600) →
    find (lit "section") (lit "chapter") (soup r) = None →
    no_content requests_get url.

(** A page whose container is there: the fetch went through and the page has
    [section]. *)
Definition has_container (requests_get : str → result response) (url : str)
    (section : node) : Prop :=
  ∃ r, requests_get url = Return r
       ∧ ¬ (400 ≤ status_code r < 600)
       ∧ find (lit "section") (lit "chapter") (soup r) = Some section.

(** [urljoin(base, ref)] where [ref] is a full address with its own scheme
    and host: the reference itself. *)
Definition urljoin_absolute (base ref : str) : result str := Return ref.

(** [urljoin(base, ref)] on full addresses, with the check of [urlsplit] on
    the host: a bracket that opens and is not closed is no IPv6 address. *)
Definition urljoin_checked (base ref : str) : result str :=
  if contains (lit "[") ref && negb (contains (lit "]") ref)
  then Raise (OtherError (lit "ValueError: Invalid IPv6 URL"))
  else Return ref.

(** The references among [links] that pass the test of line 42, in the order
    of [links]. *)
Definition accepted_hrefs (links : list node) : list str :=
  List.filter (λ h, accepted_href (Some h)) (omap get_href links).

(** The links that the walk looks at: those below the top-level items, item
    after item. *)
Definition toc_links (toc : node) : list node :=
  find_all_children (lit "li") toc ≫= find_all (lit "a").

(** [h] is the reference of a link below a top-level item of [toc], it is not
    empty, and [/chapter/] or [/front-matter/] occurs in it as it is
    written. *)
Definition written_reference (toc : node) (h : str) : Prop :=
  ∃ li a,
    li ∈ find_all_children (lit "li") toc
    ∧ a ∈ find_all (lit "a") li
    ∧ get_href a = Some h
    ∧ h ≠ []
    ∧ (occurs_in (lit "/chapter/") h ∨ occurs_in (lit "/front-matter/") h).

(** [urljoin] on every reference in turn; the first exception ends it. *)
Fixpoint resolve_all (urljoin : str → str → result str) (base_url : str)
    (hrefs : list str) : result (list str) :=
  match hrefs with
  | [] => Return []
  | href :: rest =>
      full_url ← urljoin base_url href;
      more ← resolve_all urljoin base_url rest;
      Return (full_url :: more)
  end.

(** A list item that opens the part [name] and holds [items]. *)
Definition part_item (name : str) (items : list node) : node :=
  Tag (lit "li") [lit "part"] None
    (Tag (lit "div") [lit "toc-part-header"] None
       [Tag (lit "span") [lit "part-text"] None [NavigableString name]]
     :: items).

Definition link (href : str) : node :=
  Tag (lit "a") [] (Some href) [NavigableString (lit "Chapter")].

(** The scenario of the specification: two parts, the second one repeating a
    chapter of the first. *)
Definition two_parts_toc : node :=
  Tag (lit "ol") [lit "toc"] None
    [part_item (lit "Fundamentals") [link (lit "https://book/chapter/1-1/")];
     part_item (lit "Care")
       [link (lit "https://book/chapter/2-1/"); link (lit "https://book/chapter/1-1/")]].

(** A table of contents that opens with a front-matter page outside every
    part; the first part has a chapter in its own item and one in the item
    after it. *)
Definition three_parts_toc : node :=
  Tag (lit "ol") [lit "toc"] None
    [Tag (lit "li") [] None [link (lit "https://book/front-matter/intro/")];
     part_item (lit "Fundamentals") [link (lit "https://book/chapter/1-1/")];
     Tag (lit "li") [] None [link (lit "https://book/chapter/1-2/")];
     part_item (lit "Care") [link (lit "https://book/chapter/2-1/")]].

(** A table of contents whose one link stands in a list inside the top-level
    item. *)
Definition nested_toc : node :=
  Tag (lit "ol") [lit "toc"] None
    [Tag (lit "li") [] None
       [Tag (lit "ol") [] None
          [Tag (lit "li") [] None [link (lit "https://book/chapter/1-1/")]]]].

(** The records that the walk over [three_parts_toc] collects. *)
Definition three_parts_candidates : list location :=
  [ {| url := lit "https://book/front-matter/intro/"; part_title := lit "General" |};
    {| url := lit "https://book/chapter/1-1/"; part_title := lit "Fundamentals" |};
    {| url := lit "https://book/chapter/1-2/"; part_title := lit "Fundamentals" |};
    {| url := lit "https://book/chapter/2-1/"; part_title := lit "Care" |} ].

(** What the Walker returns for [two_parts_toc]. *)
Definition two_parts_locations : list location :=
  [ {| url := lit "https://book/chapter/1-1/"; part_title := lit "Fundamentals" |};
    {| url := lit "https://book/chapter/2-1/"; part_title := lit "Care" |} ].

(** A Unicode table without any letter or digit above 127. The examples use
    it on ASCII text, where the table is not read. *)
Definition ascii_table (c : char) : bool := false.

(** A network on which no page can be fetched. *)
Definition unreachable (url : str) : result response :=
  Raise (RequestException (lit "ConnectionError")).

(** A network that answers every address with the page [page]. *)
Definition serve (page : node) (url : str) : result response :=
  Return {| status_code := 200; soup := page |}.

(** A page whose content container holds a heading and no text. *)
Definition page_without_text : node :=
  Tag (lit "html") [] None
    [Tag (lit "section") [lit "chapter"] None
       [Tag (lit "h1") [lit "entry-title"] None [NavigableString (lit "Glossary")]]].

(** A splitter that returns its input as the one chunk. *)
Definition one_chunk (text : str) : list str := [text].

(** [url] ends the way the pattern wants: [/chapter/], then [slug], a
    non-empty run of characters of the class, then one of the endings. *)
Definition chapter_path (group_char : char → bool) (url slug : str) : Prop :=
  ∃ pre tail,
    url = pre ++ lit "/chapter/" ++ slug ++ tail
    ∧ slug ≠ []
    ∧ Forall (λ c, group_char c = true) slug
    ∧ tail ∈ chapter_endings.

(** The class the specification names: alphanumerics and the hyphen. *)
Definition is_alnum_or_hyphen (unicode_alnum : char → bool) (c : char) : bool :=
  isalnum unicode_alnum c || (c =? HYPHEN)%N.

(** The segment read from the end of the address: pass over a final line
    feed, then over a final slash, and take the run of class characters. *)
Definition trailing_slug (group_char : char → bool) (url : str) : str :=
  let r := rev url in
  let r := match r with c :: r' => if (c =? LF)%N then r' else r | [] => r end in
  let r := match r with c :: r' => if (c =? SLASH)%N then r' else r | [] => r end in
  rev (span group_char r).1.

(** ** The Splitter

    [RecursiveCharacterTextSplitter] comes from the library
    [langchain_text_splitters]; [scraper.py] only builds one (lines 116-120)
    and calls its [split_text] (line 134). What follows is the algorithm as
    section 4.3 of the specification describes it. Where the specification
    leaves a choice open, the model takes these:
    - a separator stays at the end of the segment it closes, so the segments
      concatenate to the text, and an empty last segment is dropped;
    - an empty separator is never a break point;
    - the overlap that seeds a new buffer is the longest end of the flushed
      chunk of at most [chunk_overlap] characters that still leaves room for
      the next segment within [chunk_size];
    - the buffer that follows an oversized segment starts empty. *)

Module Splitter.

(** Modelled from the spec: a chunk of [RecursiveCharacterTextSplitter]
    together with [lead], the number of its first characters that repeat the
    end of the chunk before it (the overlap of step 3). *)
Record chunk : Type := Chunk { lead : nat; chunk_text : str }.

(** Modelled from the spec: the buffer of step 3 of
    [RecursiveCharacterTextSplitter.split_text] before anything is put in. *)
Definition empty_buffer : chunk := Chunk 0 [].

(** Modelled from the spec: flushing the buffer of
    [RecursiveCharacterTextSplitter.split_text] (step 3); an empty buffer
    gives no chunk. *)
Definition flush (buffer : chunk) : list chunk :=
  if truthy (chunk_text buffer) then [buffer] else [].

(** Modelled from the spec: the trailing slice of step 3 of
    [RecursiveCharacterTextSplitter.split_text], the last [n] characters of
    [s] (all of [s] when it is shorter). *)
Definition trailing_slice (n : nat) (s : str) : str := drop (length s - n) s.

(** Modelled from the spec: the first break point of step 2 of
    [RecursiveCharacterTextSplitter.split_text]: the text up to and with the
    first occurrence of [sep], and the text after it. *)
Fixpoint cut (sep text : str) : option (str * str) :=
  match remove_prefix sep text with
  | Some rest => if truthy sep then Some (sep, rest) else None
  | None =>
      match text with
      | [] => None
      | c :: text' =>
          match cut sep text' with
          | Some (segment, rest) => Some (c :: segment, rest)
          | None => None
          end
      end
  end.

(** Modelled from the spec: the segments of step 2 of
    [RecursiveCharacterTextSplitter.split_text]. Every cut takes at least one
    character, so [fuel] is never short when it starts at the length of the
    text. *)
Fixpoint segments (fuel : nat) (sep text : str) : list str :=
  match fuel, cut sep text with
  | S fuel', Some (segment, rest) => segment :: segments fuel' sep rest
  | _, _ => if truthy text then [text] else []
  end.

(** Modelled from the spec: step 2 of
    [RecursiveCharacterTextSplitter.split_text], the text split on [sep]. *)
Definition split_on (sep text : str) : list str := segments (length text) sep text.

Section Parameters.
Variable chunk_size : nat.
Variable chunk_overlap : nat.

(** Modelled from the spec: steps 3 to 5 of
    [RecursiveCharacterTextSplitter.split_text], the greedy packing of the
    segments. [finer] splits an oversized segment with the separators that
    remain. *)
Fixpoint pack (finer : str → list chunk) (buffer : chunk) (segs : list str)
  : list chunk :=
  match segs with
  | [] => flush buffer
  | segment :: rest =>
      if chunk_size <? length segment then
        flush buffer ++ finer segment ++ pack finer empty_buffer rest
      else if length (chunk_text buffer) + length segment <=? chunk_size then
        pack finer (Chunk (lead buffer) (chunk_text buffer ++ segment)) rest
      else
        let seed :=
          trailing_slice (chunk_overlap `min` (chunk_size - length segment))
                         (chunk_text buffer) in
        buffer :: pack finer (Chunk (length seed) (seed ++ segment)) rest
  end.

(** Modelled from the spec: [RecursiveCharacterTextSplitter.split_text] of
    section 4.3, with the overlap of every chunk marked. *)
Fixpoint split_chunks (separators : list str) (text : str) : list chunk :=
  if length text <=? chunk_size then [Chunk 0 text]
  else
    match separators with
    | [] => [Chunk 0 text]
    | sep :: finer =>
        if truthy sep && contains sep text
        then pack (split_chunks finer) empty_buffer (split_on sep text)
        else split_chunks finer text
    end.

(** Modelled from the spec: [RecursiveCharacterTextSplitter.split_text], the
    chunk texts in order. *)
Definition split_text (separators : list str) (text : str) : list str :=
  chunk_text <$> split_chunks separators text.

(** Modelled from the spec: the text that is left of the chunks of
    [RecursiveCharacterTextSplitter.split_text] when each one loses its
    overlap. *)
Definition without_overlaps (chunks : list chunk) : str :=
  concat ((λ c, drop (lead c) (chunk_text c)) <$> chunks).

(** Modelled from the spec: the overlap of step 3 of
    [RecursiveCharacterTextSplitter.split_text] is shared: the first [lead]
    characters of a chunk are the last [lead] characters of the chunk before
    it, and they are at most [chunk_overlap]; the first chunk has none. *)
Fixpoint overlaps_shared (previous : option str) (chunks : list chunk) : Prop :=
  match chunks with
  | [] => True
  | c :: rest =>
      match previous with
      | None => lead c = 0
      | Some p =>
          lead c ≤ chunk_overlap
          ∧ lead c ≤ length p
          ∧ take (lead c) (chunk_text c) = trailing_slice (lead c) p
      end
      ∧ overlaps_shared (Some (chunk_text c)) rest
  end.

End Parameters.

(** Modelled from the spec: the separators that line 117 gives to
    [RecursiveCharacterTextSplitter]. *)
Definition separators : list str :=
  [[LF; LF]; [LF]; lit ". "; lit "? "; lit "! "].

(** Modelled from the spec: the chunks of the [text_splitter] of lines
    116-120 ([RecursiveCharacterTextSplitter] with 1000, 150 and the
    separators above). *)
Definition text_splitter_chunks (text : str) : list chunk :=
  split_chunks 1000 150 separators text.

(** Modelled from the spec: [text_splitter.split_text] of line 134, for the
    [RecursiveCharacterTextSplitter] of lines 116-120. *)
Definition text_splitter (text : str) : list str :=
  split_text 1000 150 separators text.

End Splitter.

(** Thirty sentences of forty characters each. *)
Definition thirty_sentences : str :=
  concat (replicate 30 (lit "The aide washes both hands before care. ")).

(** A text in which whitespace is tidy: every whitespace character is a plain
    space and none follows another one. [after_space] tells that the
    character before the text was whitespace. *)
Fixpoint tidy (after_space : bool) (t : str) : Prop :=
  match t with
  | [] => True
  | c :: t' =>
      (isspace c = true → c = SPACE ∧ after_space = false)
      ∧ tidy (isspace c) t'
  end.

(** A text that neither starts nor ends with whitespace. *)
Definition trimmed (t : str) : Prop :=
  (∀ c, head t = Some c → isspace c = false)
  ∧ (∀ c, last t = Some c → isspace c = false).

(** What one location adds to the chunk list: the records of its chunks, and
    nothing when its page gives no content or its fetch raises. *)
Definition location_records (unicode_alnum : char → bool)
    (requests_get : str → result response)
    (split_text : str → list str) (url_info : location) : list chunk_record :=
  match scrape_and_clean_content requests_get (url url_info) with
  | Return (title, content) =>
      if falsy content then []
      else chunk_records unicode_alnum url_info title
             (split_text (default [] content))
  | Raise _ => []
  end.

(** What tells one chunk record from another: the page and the chunk id. *)
Definition record_key (record : chunk_record) : str * str :=
  (source_url (chunk_metadata record), chunk_id (chunk_metadata record)).

(** A page with a title and one paragraph. *)
Definition page_with_text : node :=
  Tag (lit "html") [] None
    [Tag (lit "section") [lit "chapter"] None
       [Tag (lit "h1") [lit "entry-title"] None [NavigableString (lit " Hand Hygiene ")];
        Tag (lit "p") [] None [NavigableString (lit "Wash  your hands.")]]].

Definition sample_location : location :=
  {| url := lit "https://book/chapter/3-2/"; part_title := lit "Care" |}.

(** The record that [page_with_text] gives for [sample_location]. *)
Definition sample_record : chunk_record :=
  {| page_content := lit "Wash your hands.";
     chunk_metadata :=
       {| md_part_title := lit "Care";
          chapter_number := lit "3-2";
          title := Some (lit "Hand Hygiene");
          source_url := lit "https://book/chapter/3-2/";
          chunk_id := lit "chunk_0" |} |}.

(** A splitter that cuts its input in two halves. *)
Definition halves (text : str) : list str :=
  [take (length text `div` 2) text; drop (length text `div` 2) text].

Definition two_chapter_locations : list location :=
  [ {| url := lit "https://book/chapter/3-2/"; part_title := lit "Care" |};
    {| url := lit "https://book/chapter/3-3/"; part_title := lit "Care" |} ].

(** The record of [chunk], the chunk number [i] of [page_with_text], fetched
    as the chapter [slug] of the part [Care]. *)
Definition care_record (slug i chunk : string) : chunk_record :=
  {| page_content := lit chunk;
     chunk_metadata :=
       {| md_part_title := lit "Care";
          chapter_number := lit slug;
          title := Some (lit "Hand Hygiene");
          source_url := lit "https://book/chapter/" ++ lit slug ++ lit "/";
          chunk_id := lit "chunk_" ++ lit i |} |}.

(** The records of a run over [two_chapter_locations] where every page is
    [page_with_text] and the splitter is [halves]. *)
Definition two_chapter_records : list chunk_record :=
  [ care_record "3-2" "0" "Wash you"; care_record "3-2" "1" "r hands.";
    care_record "3-3" "0" "Wash you"; care_record "3-3" "1" "r hands." ].

(** A site of three pages: the seed page, whose table of contents has the
    part [Care] with two chapters, and the pages of the chapters. *)
Definition two_chapter_site (url : str) : result response :=
  if bool_decide (url = site_url)
  then Return {| status_code := 200;
                 soup := Tag (lit "html") [] None
                           [Tag (lit "ol") [lit "toc"] None
                              [part_item (lit "Care")
                                 [link (lit "https://book/chapter/3-2/");
                                  link (lit "https://book/chapter/3-3/")]]] |}
  else serve page_with_text url.

(** A page whose content container holds a heading and one paragraph of two
    non-breaking spaces. *)
Definition page_with_blank_paragraph : node :=
  Tag (lit "html") [] None
    [Tag (lit "section") [lit "chapter"] None
       [Tag (lit "h1") [lit "entry-title"] None [NavigableString (lit "Glossary")];
        Tag (lit "p") [] None [NavigableString [160%N; 160%N]]]].


(** * Properties *)

(** ** Strings *)

Lemma startswith_prefix p s : startswith p s = true ↔ ∃ k, s = p ++ k.
Proof.
  revert s. induction p as [|a p IH]; intros s; simpl.
  - split; eauto.
  - destruct s as [|b s]; simpl.
    + split; [done | intros [k Hk]; discriminate].
    + rewrite andb_true_iff, N.eqb_eq, IH. split.
      * intros [-> [k ->]]. eauto.
      * intros [k Hk]. injection Hk as -> ->. eauto.
Qed.

Lemma contains_occurs sub s : contains sub s = true ↔ occurs_in sub s.
Proof.
  unfold occurs_in. induction s as [|c s IH]; simpl.
  - rewrite orb_false_r, startswith_prefix. split.
    + intros [k Hk]. exists [], k. done.
    + intros (pre & post & H). destruct pre; [|discriminate].
      exists post. done.
  - rewrite orb_true_iff, startswith_prefix, IH. split.
    + intros [[k ->] | (pre & post & ->)].
      * exists [], k. done.
      * exists (c :: pre), post. done.
    + intros (pre & post & H). destruct pre as [|c' pre]; simpl in H.
      * left. eauto.
      * injection H as -> ->. right. eauto.
Qed.

Lemma truthy_nonempty s : truthy s = true ↔ s ≠ [].
Proof. destruct s; simpl; split; congruence. Qed.

Lemma accepted_href_spec h :
  accepted_href (Some h) = true ↔
  h ≠ [] ∧ (occurs_in (lit "/chapter/") h ∨ occurs_in (lit "/front-matter/") h).
Proof.
  unfold accepted_href.
  by rewrite andb_true_iff, orb_true_iff, truthy_nonempty, !contains_occurs.
Qed.

(** Both sides are the same concatenation, bracketed differently. *)
Ltac reassoc := repeat (rewrite <-?app_assoc; simpl); try done.

(** ** The loop that removes duplicates *)

Section DedupFacts.
Implicit Types (items unique : list location) (seen : gset str).

Lemma dedup_fold_snoc items x acc :
  fold_left dedup_step (items ++ [x]) acc
  = dedup_step (fold_left dedup_step items acc) x.
Proof. by rewrite fold_left_app. Qed.

(** The set [seen_urls] holds the addresses of the records kept so far. *)
Lemma dedup_seen items :
  ∀ u, u ∈ (fold_left dedup_step items ([], ∅)).2
       ↔ u ∈ url <$> (fold_left dedup_step items ([], ∅)).1.
Proof.
  induction items as [|x items IH] using rev_ind; intros u.
  - simpl. set_solver.
  - rewrite dedup_fold_snoc.
    destruct (fold_left dedup_step items ([], ∅)) as [unique seen] eqn:E.
    simpl in *. destruct (decide (url x ∈ seen)); simpl; [done|].
    by rewrite fmap_app, elem_of_app, elem_of_union, IH, elem_of_singleton,
      list_fmap_singleton, list_elem_of_singleton.
Qed.

Lemma dedup_snoc items x :
  dedup (items ++ [x])
  = if decide (url x ∈ url <$> dedup items) then dedup items
    else dedup items ++ [x].
Proof.
  unfold dedup. rewrite dedup_fold_snoc.
  pose proof (dedup_seen items (url x)) as Hseen.
  destruct (fold_left dedup_step items ([], ∅)) as [unique seen].
  simpl in *.
  destruct (decide (url x ∈ seen)), (decide (url x ∈ url <$> unique));
    simpl; [done | tauto | tauto | done].
Qed.

Lemma dedup_NoDup items : NoDup (url <$> dedup items).
Proof.
  induction items as [|x items IH] using rev_ind; [constructor|].
  rewrite dedup_snoc. case_decide; [done|].
  rewrite fmap_app. apply NoDup_app. split_and!; [done| |apply NoDup_singleton].
  intros u Hu Hx. apply list_elem_of_singleton in Hx. by subst.
Qed.

Lemma dedup_complete items u : u ∈ url <$> items → u ∈ url <$> dedup items.
Proof.
  induction items as [|x items IH] using rev_ind; [done|].
  rewrite dedup_snoc, fmap_app, elem_of_app. intros [Hu | Hu].
  - case_decide; [auto|]. rewrite fmap_app, elem_of_app. auto.
  - apply list_elem_of_singleton in Hu as ->.
    case_decide; [done|]. rewrite fmap_app, elem_of_app. right. by left.
Qed.

Lemma dedup_first items r :
  r ∈ dedup items → ∃ pre post, items = pre ++ r :: post ∧ url r ∉ url <$> pre.
Proof.
  induction items as [|x items IH] using rev_ind; [by intros ?%elem_of_nil|].
  rewrite dedup_snoc. case_decide as Hx.
  - intros (pre & post & -> & Hr)%IH. exists pre, (post ++ [x]).
    split; [reassoc | done].
  - rewrite elem_of_app. intros [(pre & post & -> & Hr)%IH | ->%list_elem_of_singleton].
    + exists pre, (post ++ [x]). split; [reassoc | done].
    + exists items, []. split; [done|]. intros Hin. by apply Hx, dedup_complete.
Qed.

Lemma dedup_sound items r : r ∈ dedup items → r ∈ items.
Proof.
  intros (pre & post & -> & _)%dedup_first. rewrite elem_of_app, elem_of_cons. auto.
Qed.

Lemma dedup_order items l1 a l2 b l3 :
  dedup items = l1 ++ a :: l2 ++ b :: l3 →
  ∃ pre mid post,
    items = pre ++ a :: mid ++ b :: post
    ∧ (url a ∉ url <$> pre) ∧ (url b ∉ url <$> pre ++ a :: mid).
Proof.
  revert l3. induction items as [|x items IH] using rev_ind; intros l3.
  - intros H. by destruct l1.
  - rewrite dedup_snoc. case_decide as Hx.
    + intros (pre & mid & post & -> & ? & ?)%IH.
      exists pre, mid, (post ++ [x]). split_and!; [|done..]. reassoc.
    + intros H. destruct l3 as [|z l3 _] using rev_ind.
      * replace (l1 ++ a :: l2 ++ [b]) with ((l1 ++ a :: l2) ++ [b]) in H
          by reassoc.
        apply app_inj_tail in H as [H ->].
        assert (a ∈ dedup items) as (pre & post & -> & Ha)%dedup_first.
        { rewrite H, elem_of_app, elem_of_cons. auto. }
        exists pre, post, []. split_and!; [reassoc|done|].
        intros Hin. by apply Hx, dedup_complete.
      * replace (l1 ++ a :: l2 ++ b :: l3 ++ [z])
          with ((l1 ++ a :: l2 ++ b :: l3) ++ [z]) in H
          by reassoc.
        apply app_inj_tail in H as [H ->].
        apply IH in H as (pre & mid & post & -> & ? & ?).
        exists pre, mid, (post ++ [z]). split_and!; [|done..]. reassoc.
Qed.

End DedupFacts.

(** ** The walk over the table of contents *)

Lemma descendants_Tag name classes href contents :
  descendants (Tag name classes href contents)
  = contents ≫= λ c, c :: descendants c.
Proof. simpl. induction contents as [|c contents IH]; simpl; [done|]. by rewrite IH. Qed.

Lemma filter_sublist {A} (f : A → bool) (l : list A) : sublist (List.filter f l) l.
Proof.
  induction l as [|x l IH]; simpl; [constructor|].
  destruct (f x); by constructor.
Qed.

(** The links of the walk stand in the order of the document. *)
Lemma toc_links_document_order toc : sublist (toc_links toc) (descendants toc).
Proof.
  destruct toc as [text | name classes href contents]; [constructor|].
  rewrite descendants_Tag. unfold toc_links, find_all_children. simpl.
  induction contents as [|c contents IH]; simpl; [constructor|].
  destruct (is_tag (lit "li") c); simpl.
  - apply sublist_cons, sublist_app; [apply filter_sublist | done].
  - by apply sublist_cons, sublist_inserts_l.
Qed.

Lemma accepted_hrefs_app l1 l2 :
  accepted_hrefs (l1 ++ l2) = accepted_hrefs l1 ++ accepted_hrefs l2.
Proof. unfold accepted_hrefs. by rewrite omap_app, List.filter_app. Qed.

Lemma accepted_hrefs_cons a links :
  accepted_hrefs (a :: links)
  = match get_href a with
    | Some h =>
        if accepted_href (Some h) then h :: accepted_hrefs links
        else accepted_hrefs links
    | None => accepted_hrefs links
    end.
Proof. unfold accepted_hrefs. simpl. by destruct (get_href a). Qed.

Lemma elem_of_accepted_hrefs links h :
  h ∈ accepted_hrefs links
  ↔ ∃ a, a ∈ links ∧ get_href a = Some h ∧ accepted_href (Some h) = true.
Proof.
  unfold accepted_hrefs.
  rewrite list_elem_of_In, filter_In, <-list_elem_of_In, list_elem_of_omap.
  split; [intros [(a & ? & ?) ?] | intros (a & ? & ? & ?)]; eauto.
Qed.

Lemma elem_of_toc_links toc a :
  a ∈ toc_links toc
  ↔ ∃ li, li ∈ find_all_children (lit "li") toc ∧ a ∈ find_all (lit "a") li.
Proof.
  unfold toc_links. rewrite list_elem_of_bind.
  split; intros (li & ? & ?); eauto.
Qed.

Lemma written_reference_accepted toc h :
  written_reference toc h ↔ h ∈ accepted_hrefs (toc_links toc).
Proof.
  unfold written_reference. rewrite elem_of_accepted_hrefs.
  setoid_rewrite elem_of_toc_links. setoid_rewrite accepted_href_spec. split.
  - intros (li & a & ? & ? & ? & ? & ?). exists a. eauto 10.
  - intros (a & (li & ? & ?) & ? & ? & ?). exists li, a. eauto 10.
Qed.

Lemma result_bind_Return {A B} (a : A) (k : A → result B) : Return a ≫= k = k a.
Proof. done. Qed.

Lemma fmap_url_titled (t : str) (us : list str) :
  url <$> ((λ u, {| url := u; part_title := t |}) <$> us) = us.
Proof. induction us as [|u us IH]; [done|]. rewrite !fmap_cons. by f_equal. Qed.

Section WalkerFacts.
Variable urljoin : str → str → result str.
Variable base_url : str.

Lemma resolve_all_app l1 l2 :
  resolve_all urljoin base_url (l1 ++ l2)
  = us1 ← resolve_all urljoin base_url l1;
    us2 ← resolve_all urljoin base_url l2;
    Return (us1 ++ us2).
Proof.
  induction l1 as [|h l1 IH]; simpl.
  - by destruct (resolve_all urljoin base_url l2).
  - destruct (urljoin base_url h) as [u|e]; simpl; [|done].
    rewrite IH. destruct (resolve_all urljoin base_url l1); simpl; [|done].
    by destruct (resolve_all urljoin base_url l2).
Qed.

Lemma resolve_all_Return l us :
  resolve_all urljoin base_url l = Return us
  ↔ Forall2 (λ h u, urljoin base_url h = Return u) l us.
Proof.
  revert us. induction l as [|h l IH]; intros us; simpl.
  - split; [intros [= <-]; constructor | by intros ->%Forall2_nil_inv_l].
  - split.
    + destruct (urljoin base_url h) as [u|e] eqn:Hu; simpl; [|done].
      destruct (resolve_all urljoin base_url l) as [us'|e] eqn:Hus; simpl; [|done].
      intros [= <-]. constructor; [done | by apply IH].
    + intros (u & us' & Hu & Hrest%IH & ->)%Forall2_cons_inv_l.
      by rewrite Hu, Hrest.
Qed.

Lemma resolve_all_Raise l e :
  resolve_all urljoin base_url l = Raise e →
  ∃ h, h ∈ l ∧ urljoin base_url h = Raise e.
Proof.
  induction l as [|h l IH]; simpl; [done|].
  destruct (urljoin base_url h) as [u|e'] eqn:Hu; simpl.
  - destruct (resolve_all urljoin base_url l) as [us|e'] eqn:Hus; simpl; [done|].
    intros [= ->]. destruct IH as (h' & ? & ?); [done|].
    exists h'. split; [by right | done].
  - intros [= ->]. exists h. split; [by left | done].
Qed.

Lemma resolve_all_raises l h e :
  h ∈ l → urljoin base_url h = Raise e →
  ∃ e', resolve_all urljoin base_url l = Raise e'.
Proof.
  intros Hin Hh. induction l as [|h' l IH]; [by apply elem_of_nil in Hin|].
  simpl. destruct (urljoin base_url h') as [u|e'] eqn:Hu; simpl; [|by eexists].
  apply elem_of_cons in Hin as [-> | Hin]; [congruence|].
  destruct (IH Hin) as [e' ->]. by eexists.
Qed.

Lemma resolve_all_elem l us u :
  resolve_all urljoin base_url l = Return us →
  u ∈ us ↔ ∃ h, h ∈ l ∧ urljoin base_url h = Return u.
Proof.
  intros Hall%resolve_all_Return. induction Hall as [|h u' l us Hu Hall IH].
  - split; [by intros ?%elem_of_nil | by intros (? & ?%elem_of_nil & _)].
  - rewrite elem_of_cons, IH. clear IH. split.
    + intros [-> | (h' & ? & ?)]; [exists h | exists h'];
        (split; [rewrite elem_of_cons; auto | done]).
    + intros (h' & [-> | ?]%elem_of_cons & Hu'); [left; congruence | right; eauto].
Qed.

(** The records of one item: its accepted references, resolved one after the
    other, each under the title of the item. *)
Lemma item_links_resolve title links :
  item_links urljoin base_url title links
  = resolve_all urljoin base_url (accepted_hrefs links)
    ≫= λ us : list str, Return ((λ u, {| url := u; part_title := title |}) <$> us).
Proof.
  induction links as [|a links IH]; [done|].
  rewrite accepted_hrefs_cons. simpl.
  destruct (get_href a) as [h|]; [|done].
  destruct (accepted_href (Some h)); [|done]. simpl.
  destruct (urljoin base_url h) as [u|e]; simpl; [|done].
  rewrite IH. by destruct (resolve_all urljoin base_url (accepted_hrefs links)).
Qed.

Lemma walk_item_resolve st li :
  walk_item urljoin base_url st li
  = resolve_all urljoin base_url (accepted_hrefs (find_all (lit "a") li))
    ≫= λ us : list str,
    Return {| structured_urls :=
                structured_urls st
                ++ ((λ u, {| url := u;
                             part_title := update_part_title (current_part_title st) li |})
                      <$> us);
              current_part_title := update_part_title (current_part_title st) li |}.
Proof.
  unfold walk_item. rewrite item_links_resolve.
  by destruct (resolve_all urljoin base_url _).
Qed.

Lemma walk_items_app xs ys st :
  walk_items urljoin base_url (xs ++ ys) st
  = walk_items urljoin base_url xs st ≫= walk_items urljoin base_url ys.
Proof.
  revert st. induction xs as [|li xs IH]; intros st; simpl; [done|].
  destruct (walk_item urljoin base_url st li); simpl; [apply IH | done].
Qed.

Lemma walk_items_cons li items st :
  walk_items urljoin base_url (li :: items) st
  = walk_item urljoin base_url st li ≫= walk_items urljoin base_url items.
Proof. done. Qed.

(** The walk adds one record for each accepted reference, in the order of the
    links, and raises what [urljoin] raises first. *)
Lemma walk_items_resolve items st :
  match walk_items urljoin base_url items st with
  | Return st' =>
      ∃ added,
        structured_urls st' = structured_urls st ++ added
        ∧ resolve_all urljoin base_url (accepted_hrefs (items ≫= find_all (lit "a")))
          = Return (url <$> added)
  | Raise e =>
      resolve_all urljoin base_url (accepted_hrefs (items ≫= find_all (lit "a")))
      = Raise e
  end.
Proof.
  revert st. induction items as [|li items IH]; intros st.
  - simpl. exists []. by rewrite app_nil_r.
  - rewrite walk_items_cons, bind_cons, accepted_hrefs_app, resolve_all_app,
      walk_item_resolve.
    destruct (resolve_all urljoin base_url (accepted_hrefs (find_all (lit "a") li)))
      as [us|e]; simpl; [|done].
    match goal with |- context [walk_items _ _ _ ?s] => specialize (IH s) end.
    destruct (walk_items urljoin base_url items _) as [st'|e].
    + destruct IH as (added & Hurls & ->). simpl in *.
      eexists. split; [by rewrite Hurls, <-app_assoc|].
      by rewrite fmap_app, fmap_url_titled.
    + by rewrite IH.
Qed.

Lemma walk_toc_Return toc locs :
  walk_toc urljoin base_url toc = Return locs →
  ∃ st, walk urljoin base_url toc = Return st ∧ locs = dedup (structured_urls st).
Proof.
  unfold walk_toc. destruct (walk urljoin base_url toc) as [st|e]; simpl; [|done].
  intros [= <-]. by exists st.
Qed.

Lemma walk_candidates toc st :
  walk urljoin base_url toc = Return st →
  resolve_all urljoin base_url (accepted_hrefs (toc_links toc))
  = Return (url <$> structured_urls st).
Proof.
  unfold walk. intros Hwalk.
  pose proof (walk_items_resolve (find_all_children (lit "li") toc) walk_init) as H.
  rewrite Hwalk in H. destruct H as (added & -> & H). done.
Qed.

Lemma walk_toc_Raise toc e :
  walk_toc urljoin base_url toc = Raise e
  ↔ resolve_all urljoin base_url (accepted_hrefs (toc_links toc)) = Raise e.
Proof.
  unfold walk_toc, walk.
  pose proof (walk_items_resolve (find_all_children (lit "li") toc) walk_init) as H.
  destruct (walk_items urljoin base_url _ walk_init) as [st|e']; simpl.
  - destruct H as (added & _ & H). unfold toc_links. rewrite H. by split.
  - unfold toc_links. rewrite H. split; congruence.
Qed.

Lemma walk_toc_urls toc locs u :
  walk_toc urljoin base_url toc = Return locs →
  u ∈ url <$> locs
  ↔ ∃ h, h ∈ accepted_hrefs (toc_links toc) ∧ urljoin base_url h = Return u.
Proof.
  intros (st & Hwalk%walk_candidates & ->)%walk_toc_Return.
  rewrite <-(resolve_all_elem _ _ _ Hwalk). split; [|apply dedup_complete].
  intros (r & -> & ?%dedup_sound)%list_elem_of_fmap. by apply list_elem_of_fmap_2.
Qed.

(** Without a part marker the title stays the one the walk starts with. *)
Lemma walk_items_general items st st' :
  (∀ li, li ∈ items → has_class (lit "part") li = false) →
  current_part_title st = lit "General" →
  (∀ loc, loc ∈ structured_urls st → part_title loc = lit "General") →
  walk_items urljoin base_url items st = Return st' →
  ∀ loc, loc ∈ structured_urls st' → part_title loc = lit "General".
Proof.
  revert st. induction items as [|li items IH]; intros st Hitems Hcur Hst.
  - by intros [= <-].
  - rewrite walk_items_cons, walk_item_resolve.
    destruct (resolve_all urljoin base_url _) as [us|e]; simpl; [|done].
    assert (update_part_title (current_part_title st) li = lit "General") as ->.
    { unfold update_part_title. by rewrite Hitems by left. }
    apply IH; [intros li' ?; apply Hitems; by right | done |].
    simpl. intros loc [? | (u & -> & _)%list_elem_of_fmap]%elem_of_app; auto.
Qed.

(** C2. When the Walker returns, the records met during the walk are those of
    the accepted references of the links below the top-level items, link
    after link in the order of the document; the returned list holds no
    address twice; every address met is in it; each record is the first one
    met with its address; and two records stand in the list in the order in
    which they were first met. *)
Theorem walker_keeps_first_occurrences (toc : node) (locs : list location) :
  walk_toc urljoin base_url toc = Return locs →
  ∃ candidates,
    sublist (toc_links toc) (descendants toc)
    ∧ Forall2 (λ h r, urljoin base_url h = Return (url r))
        (accepted_hrefs (toc_links toc)) candidates
    ∧ NoDup (url <$> locs)
    ∧ (∀ r, r ∈ candidates → url r ∈ url <$> locs)
    ∧ (∀ r, r ∈ locs →
            ∃ pre post, candidates = pre ++ r :: post ∧ url r ∉ url <$> pre)
    ∧ (∀ l1 a l2 b l3,
         locs = l1 ++ a :: l2 ++ b :: l3 →
         ∃ pre mid post,
           candidates = pre ++ a :: mid ++ b :: post
           ∧ (url a ∉ url <$> pre) ∧ (url b ∉ url <$> pre ++ a :: mid)).
Proof.
  intros (st & Hwalk%walk_candidates & ->)%walk_toc_Return.
  exists (structured_urls st). split_and!.
  - apply toc_links_document_order.
  - apply resolve_all_Return, Forall2_fmap_r in Hwalk. exact Hwalk.
  - apply dedup_NoDup.
  - intros r Hr. by apply dedup_complete, list_elem_of_fmap_2.
  - apply dedup_first.
  - apply dedup_order.
Qed.

(** C4, as the code has it. The test of line 42 reads the reference as it is
    written in the page. When the Walker returns, an address is in its list
    exactly when it is what [urljoin] gives for a written reference that
    passes the test; when the Walker raises, [urljoin] raised on such a
    reference; and it raises as soon as [urljoin] does on one of them. *)
Theorem walker_admits_by_written_reference (toc : node) :
  (∀ locs, walk_toc urljoin base_url toc = Return locs →
     ∀ u, u ∈ url <$> locs
          ↔ ∃ h, written_reference toc h ∧ urljoin base_url h = Return u)
  ∧ (∀ e, walk_toc urljoin base_url toc = Raise e →
          ∃ h, written_reference toc h ∧ urljoin base_url h = Raise e)
  ∧ ((∃ h e, written_reference toc h ∧ urljoin base_url h = Raise e) →
     ∃ e, walk_toc urljoin base_url toc = Raise e).
Proof.
  split_and!.
  - intros locs Hlocs u. rewrite (walk_toc_urls _ _ _ Hlocs).
    by setoid_rewrite written_reference_accepted.
  - intros e (h & ? & ?)%walk_toc_Raise%resolve_all_Raise.
    exists h. by rewrite written_reference_accepted.
  - intros (h & e & Hh%written_reference_accepted & Hraise).
    destruct (resolve_all_raises _ _ _ Hh Hraise) as [e' He'].
    exists e'. by apply walk_toc_Raise.
Qed.

(** C7. When no top-level item carries the part marker, every record of the
    list that the Walker returns has the part title [General]. *)
Theorem walker_default_part_title (toc : node) (locs : list location) :
  (∀ li, li ∈ find_all_children (lit "li") toc → has_class (lit "part") li = false) →
  walk_toc urljoin base_url toc = Return locs →
  ∀ loc, loc ∈ locs → part_title loc = lit "General".
Proof.
  intros Hno (st & Hwalk & ->)%walk_toc_Return loc Hloc%dedup_sound.
  revert loc Hloc. unfold walk in Hwalk.
  eapply walk_items_general; [done | | | done]; [done|].
  by intros loc ?%elem_of_nil.
Qed.

(** C8, as the code has it. One turn of the walk changes the current part
    title only for an item that carries the part marker and in whose first
    [div.toc-part-header] a [span.part-text] is found; the new title is then
    the stripped text of that span, which can be the empty string. An item
    with the marker and no such span, and an item without the marker, leave
    the title as it was. *)
Theorem part_title_carried_forward (st st' : walk_state) (li : node) :
  walk_item urljoin base_url st li = Return st' →
  (current_part_title st' ≠ current_part_title st →
   has_class (lit "part") li = true
   ∧ part_text li = Some (current_part_title st'))
  ∧ (has_class (lit "part") li = true →
     ∀ name, part_text li = Some name → current_part_title st' = name)
  ∧ (has_class (lit "part") li = true →
     part_text li = None →
     current_part_title st' = current_part_title st)
  ∧ (has_class (lit "part") li = false →
     current_part_title st' = current_part_title st).
Proof.
  rewrite walk_item_resolve.
  destruct (resolve_all urljoin base_url _) as [us|e]; simpl; [|done].
  intros [= <-]. simpl. unfold update_part_title.
  destruct (has_class (lit "part") li), (part_text li);
    split_and!; intros; try split; congruence.
Qed.

End WalkerFacts.

Example walker_two_parts :
  walk_toc urljoin_absolute site_url two_parts_toc = Return two_parts_locations.
Proof. vm_compute. reflexivity. Qed.

(** A reference that passes the test of line 42 and that [urljoin] cannot
    split: the walk ends with the exception, and so do phase 1 and the
    run. *)
Example walker_raises_on_bad_reference :
  walk_toc urljoin_checked site_url
    (Tag (lit "ol") [lit "toc"] None
       [part_item (lit "Care")
          [link (lit "https://book/chapter/2-1/"); link (lit "http://[::1/chapter/1-1/")]])
  = Raise (OtherError (lit "ValueError: Invalid IPv6 URL"))
  ∧ main ascii_table urljoin_checked
      (serve (Tag (lit "html") [] None
                [Tag (lit "ol") [lit "toc"] None
                   [part_item (lit "Care") [link (lit "http://[::1/chapter/1-1/")]]]))
      one_chunk site_url
    = Raise (OtherError (lit "ValueError: Invalid IPv6 URL")).
Proof. split; vm_compute; reflexivity. Qed.

(** C4 as the specification words it fails. The link [chapter/1-1/] stands
    below a top-level item and resolves to
    [https://wtcs.pressbooks.pub/nurseassist/chapter/1-1/], an address with
    [/chapter/] in it; the Walker tests the reference as written, finds no
    [/chapter/] in it and drops the link. *)
Lemma relative_chapter_link_is_dropped :
  link (lit "chapter/1-1/") ∈ toc_links (toc_with_link (lit "chapter/1-1/"))
  ∧ urljoin_relative_path site_url (lit "chapter/1-1/")
    = Return (lit "https://wtcs.pressbooks.pub/nurseassist/chapter/1-1/")
  ∧ accepted_address (lit "https://wtcs.pressbooks.pub/nurseassist/chapter/1-1/") = true
  ∧ walk_toc urljoin_relative_path site_url (toc_with_link (lit "chapter/1-1/"))
    = Return [].
Proof.
  split_and!; [|vm_compute; reflexivity..].
  vm_compute. apply list_elem_of_singleton. reflexivity.
Qed.

Lemma walker_keeps_first_occurrences_witness :
  walk_toc urljoin_absolute site_url two_parts_toc = Return two_parts_locations
  ∧ ∃ candidates,
    sublist (toc_links two_parts_toc) (descendants two_parts_toc)
    ∧ Forall2 (λ h r, urljoin_absolute site_url h = Return (url r))
        (accepted_hrefs (toc_links two_parts_toc)) candidates
    ∧ NoDup (url <$> two_parts_locations)
    ∧ (∀ r, r ∈ candidates → url r ∈ url <$> two_parts_locations)
    ∧ (∀ r, r ∈ two_parts_locations →
            ∃ pre post, candidates = pre ++ r :: post ∧ url r ∉ url <$> pre)
    ∧ (∀ l1 a l2 b l3,
         two_parts_locations = l1 ++ a :: l2 ++ b :: l3 →
         ∃ pre mid post,
           candidates = pre ++ a :: mid ++ b :: post
           ∧ (url a ∉ url <$> pre) ∧ (url b ∉ url <$> pre ++ a :: mid)).
Proof.
  assert (walk_toc urljoin_absolute site_url two_parts_toc = Return two_parts_locations)
    as Hwalk by (vm_compute; reflexivity).
  split; [done|].
  by apply (walker_keeps_first_occurrences urljoin_absolute site_url two_parts_toc).
Defined.

Lemma walker_default_part_title_witness :
  walk_toc urljoin_absolute site_url
    (toc_with_link (lit "https://wtcs.pressbooks.pub/nurseassist/chapter/1-1/"))
  = Return [ {| url := lit "https://wtcs.pressbooks.pub/nurseassist/chapter/1-1/";
                part_title := lit "General" |} ]
  ∧ Forall (λ loc, part_title loc = lit "General")
      [ {| url := lit "https://wtcs.pressbooks.pub/nurseassist/chapter/1-1/";
           part_title := lit "General" |} ].
Proof.
  assert (walk_toc urljoin_absolute site_url
            (toc_with_link (lit "https://wtcs.pressbooks.pub/nurseassist/chapter/1-1/"))
          = Return [ {| url := lit "https://wtcs.pressbooks.pub/nurseassist/chapter/1-1/";
                        part_title := lit "General" |} ]) as Hwalk
    by (vm_compute; reflexivity).
  split; [done|]. apply Forall_forall.
  apply (walker_default_part_title urljoin_absolute site_url
           (toc_with_link (lit "https://wtcs.pressbooks.pub/nurseassist/chapter/1-1/")));
    [|done].
  intros li Hli. vm_compute in Hli.
  apply list_elem_of_singleton in Hli as ->. reflexivity.
Defined.

Lemma part_title_carried_forward_witness :
  ∃ st',
    walk_item urljoin_absolute site_url
      {| structured_urls := []; current_part_title := lit "Fundamentals" |}
      (Tag (lit "li") [lit "part"] None [link (lit "https://book/chapter/2-1/")])
    = Return st'
    ∧ structured_urls st'
      = [ {| url := lit "https://book/chapter/2-1/"; part_title := lit "Fundamentals" |} ]
    ∧ current_part_title st' = lit "Fundamentals".
Proof.
  eexists. split; [vm_compute; reflexivity|]. split; [vm_compute; reflexivity|].
  apply (proj1 (proj2 (proj2 (part_title_carried_forward urljoin_absolute site_url
                  {| structured_urls := []; current_part_title := lit "Fundamentals" |}
                  _
                  (Tag (lit "li") [lit "part"] None [link (lit "https://book/chapter/2-1/")])
                  eq_refl))));
    vm_compute; reflexivity.
Defined.

(** C8 as the specification words it fails. The item carries the part marker
    and its [span.part-text] holds only blanks: there is no text to extract,
    and the walk replaces the title [Fundamentals] by the empty string. *)
Lemma blank_part_name_resets_title :
  has_class (lit "part") (part_item (lit "  ") []) = true
  ∧ part_text (part_item (lit "  ") []) = Some []
  ∧ walk_item urljoin_absolute site_url
      {| structured_urls := []; current_part_title := lit "Fundamentals" |}
      (part_item (lit "  ") [])
    = Return {| structured_urls := []; current_part_title := [] |}.
Proof. split_and!; vm_compute; reflexivity. Qed.

(** ** Pages without content *)

Lemma status_error_raises r :
  400 ≤ status_code r < 600 →
  raise_for_status r = Raise (RequestException (lit "HTTPError")).
Proof.
  intros [Hlo Hhi]. unfold raise_for_status.
  apply Nat.leb_le in Hlo. apply Nat.ltb_lt in Hhi. by rewrite Hlo, Hhi.
Qed.

Lemma status_fine_returns r :
  ¬ (400 ≤ status_code r < 600) → raise_for_status r = Return r.
Proof.
  intros Hok. unfold raise_for_status.
  destruct (400 <=? status_code r) eqn:Hlo, (status_code r <? 600) eqn:Hhi; try done.
  apply Nat.leb_le in Hlo. apply Nat.ltb_lt in Hhi. lia.
Qed.

(** [get_structured_urls] is the Walker on the [ol.toc] of the fetched page. *)
Lemma get_structured_urls_walks urljoin base_url requests_get r toc :
  requests_get base_url = Return r →
  ¬ (400 ≤ status_code r < 600) →
  find (lit "ol") (lit "toc") (soup r) = Some toc →
  get_structured_urls urljoin base_url requests_get
  = walk_toc urljoin base_url toc.
Proof.
  intros Hget Hstatus Htoc. unfold get_structured_urls.
  rewrite Hget. simpl. by rewrite status_fine_returns, Htoc.
Qed.

(** Without any text part the cleaned text is empty. *)
Lemma cleaned_text_without_blocks section :
  find (lit "div") (lit "textbox--learning-objectives") section = None →
  find_all (lit "p") section = [] →
  cleaned_text section = [].
Proof.
  intros Hlo Hp. unfold cleaned_text, text_parts. by rewrite Hlo, Hp.
Qed.

Section PipelineFacts.
Variable unicode_alnum : char → bool.
Variable requests_get : str → result response.
Variable split_text : str → list str.

Lemma scrape_no_content url :
  no_content requests_get url →
  scrape_and_clean_content requests_get url = Return (None, None).
Proof.
  unfold scrape_and_clean_content.
  intros [what -> | r -> Hstatus | r -> Hstatus Hsection]; simpl.
  - done.
  - by rewrite status_error_raises.
  - by rewrite status_fine_returns, Hsection.
Qed.

Lemma scrape_container url section :
  has_container requests_get url section →
  scrape_and_clean_content requests_get url
  = Return (Some (page_title section), Some (cleaned_text section)).
Proof.
  unfold scrape_and_clean_content. intros (r & -> & Hstatus & Hsection). simpl.
  by rewrite status_fine_returns, Hsection.
Qed.

(** A location that adds nothing can be taken out of the list. *)
Lemma main_loop_skip url_info :
  (∀ all_chunks,
     process_location unicode_alnum requests_get split_text all_chunks url_info = Return all_chunks) →
  ∀ before after all_chunks,
    main_loop unicode_alnum requests_get split_text all_chunks (before ++ url_info :: after)
    = main_loop unicode_alnum requests_get split_text all_chunks (before ++ after).
Proof.
  intros Hskip before after. induction before as [|x before IH]; intros all_chunks; simpl.
  - by rewrite Hskip.
  - destruct (process_location unicode_alnum requests_get split_text all_chunks x); simpl; auto.
Qed.


(** C10. A location whose content container is there and whose cleaned text
    is the empty string: the Normalizer returns the title and [""], and the
    loop does with it what it does with a missing container: the chunk list
    stays as it was, title and all are dropped, and the run goes on as if the
    location were not in the list. *)
Theorem empty_text_location_is_skipped (url_info : location) (section : node) :
  has_container requests_get (url url_info) section →
  cleaned_text section = [] →
  scrape_and_clean_content requests_get (url url_info)
  = Return (Some (page_title section), Some [])
  ∧ (∀ all_chunks,
       process_location unicode_alnum requests_get split_text all_chunks url_info = Return all_chunks)
  ∧ (∀ before after all_chunks,
       main_loop unicode_alnum requests_get split_text all_chunks (before ++ url_info :: after)
       = main_loop unicode_alnum requests_get split_text all_chunks (before ++ after)).
Proof.
  intros Hscrape%scrape_container Hempty. rewrite Hempty in Hscrape.
  assert (∀ all_chunks,
    process_location unicode_alnum requests_get split_text all_chunks url_info = Return all_chunks)
    as Hskip by (intros; unfold process_location; by rewrite Hscrape).
  split_and!; [done | done |]. by apply main_loop_skip.
Qed.

End PipelineFacts.


Lemma empty_text_location_is_skipped_witness :
  cleaned_text
    (Tag (lit "section") [lit "chapter"] None
       [Tag (lit "h1") [lit "entry-title"] None [NavigableString (lit "Glossary")];
        Tag (lit "p") [] None [NavigableString [160%N; 160%N]]]) = []
  ∧ main_loop ascii_table (serve page_with_blank_paragraph) one_chunk []
      [ {| url := lit "https://book/chapter/glossary/"; part_title := lit "General" |} ]
    = Return [].
Proof.
  split; [vm_compute; reflexivity|].
  refine (proj2 (proj2 (empty_text_location_is_skipped ascii_table
    (serve page_with_blank_paragraph) one_chunk
    {| url := lit "https://book/chapter/glossary/"; part_title := lit "General" |}
    (Tag (lit "section") [lit "chapter"] None
       [Tag (lit "h1") [lit "entry-title"] None [NavigableString (lit "Glossary")];
        Tag (lit "p") [] None [NavigableString [160%N; 160%N]]])
    _ _)) [] [] []).
  - eexists. split_and!; [reflexivity | simpl; lia | vm_compute; reflexivity].
  - vm_compute; reflexivity.
Defined.

(** A page with a heading and no paragraph is skipped as well. *)
Example page_without_text_is_skipped :
  main_loop ascii_table (serve page_without_text) one_chunk []
    [ {| url := lit "https://book/chapter/glossary/"; part_title := lit "General" |} ]
  = Return [].
Proof. vm_compute. reflexivity. Qed.

(** ** The chapter number *)

Section ChapterFacts.
Variable group_char : char → bool.

Lemma span_split s :
  s = (span group_char s).1 ++ (span group_char s).2
  ∧ Forall (λ c, group_char c = true) (span group_char s).1.
Proof.
  induction s as [|c s [IH1 IH2]]; simpl; [by split|].
  destruct (group_char c) eqn:Hc; [|by split].
  destruct (span group_char s) as [run rest]. simpl in *.
  split; [by f_equal | by constructor].
Qed.

(** A run of class characters that stops at the end of the string or before
    a character outside the class is what [span] returns. *)
Lemma span_run run rest :
  Forall (λ c, group_char c = true) run →
  match rest with [] => True | c :: _ => group_char c = false end →
  span group_char (run ++ rest) = (run, rest).
Proof.
  intros Hrun Hrest. induction Hrun as [|c run Hc _ IH]; simpl.
  - destruct rest as [|c rest]; [done|]. simpl. by rewrite Hrest.
  - by rewrite Hc, IH.
Qed.

Lemma remove_prefix_Some p s r : remove_prefix p s = Some r ↔ s = p ++ r.
Proof.
  revert s. induction p as [|a p IH]; intros s; simpl.
  - split; congruence.
  - destruct s as [|b s]; [split; discriminate|].
    destruct (a =? b)%N eqn:Hab.
    + apply N.eqb_eq in Hab as ->. rewrite IH. split; congruence.
    + apply N.eqb_neq in Hab. split; [discriminate | congruence].
Qed.

Lemma match_chapter_here_Some s slug :
  match_chapter_here group_char s = Some slug →
  ∃ tail, s = lit "/chapter/" ++ slug ++ tail
          ∧ slug ≠ [] ∧ Forall (λ c, group_char c = true) slug
          ∧ tail ∈ chapter_endings.
Proof.
  unfold match_chapter_here.
  destruct (remove_prefix _ s) as [rest|] eqn:Hrest; [|done].
  apply remove_prefix_Some in Hrest as ->.
  pose proof (span_split rest) as [Hsplit Hrun].
  destruct (span group_char rest) as [run tail]. simpl in *.
  destruct (truthy run) eqn:Hne, (match_end tail) eqn:Hend; simpl; try done.
  intros [= <-]. exists tail. split_and!; try done.
  - by rewrite Hsplit.
  - by apply truthy_nonempty.
  - by apply bool_decide_eq_true in Hend.
Qed.

Lemma search_chapter_sound s slug :
  search_chapter group_char s = Some slug → chapter_path group_char s slug.
Proof.
  induction s as [|c s IH]; simpl; [done|].
  destruct (match_chapter_here group_char (c :: s)) eqn:Hm.
  - intros [= ->]. apply match_chapter_here_Some in Hm as (tail & ? & ?).
    by exists [], tail.
  - intros (pre & tail & -> & ?)%IH. by exists (c :: pre), tail.
Qed.

Hypothesis slash_outside : group_char SLASH = false.
Hypothesis line_feed_outside : group_char LF = false.

Lemma ending_stops_run tail :
  tail ∈ chapter_endings →
  match tail with [] => True | c :: _ => group_char c = false end.
Proof.
  unfold chapter_endings.
  rewrite !elem_of_cons, elem_of_nil. intros [-> | [-> | [-> | [-> | []]]]]; done.
Qed.

Lemma match_chapter_here_path slug tail :
  slug ≠ [] → Forall (λ c, group_char c = true) slug → tail ∈ chapter_endings →
  match_chapter_here group_char (lit "/chapter/" ++ slug ++ tail) = Some slug.
Proof.
  intros Hne Hrun Htail. unfold match_chapter_here.
  assert (remove_prefix (lit "/chapter/") (lit "/chapter/" ++ slug ++ tail)
          = Some (slug ++ tail)) as -> by by apply remove_prefix_Some.
  rewrite (span_run slug tail Hrun (ending_stops_run tail Htail)).
  apply truthy_nonempty in Hne. unfold match_end.
  by rewrite Hne, bool_decide_eq_true_2.
Qed.

Lemma search_chapter_unfold s :
  search_chapter group_char s
  = match match_chapter_here group_char s with
    | Some slug => Some slug
    | None => match s with [] => None | _ :: s' => search_chapter group_char s' end
    end.
Proof. by destruct s. Qed.

Lemma search_chapter_complete s slug :
  chapter_path group_char s slug → is_Some (search_chapter group_char s).
Proof.
  intros (pre & tail & -> & Hne & Hrun & Htail).
  induction pre as [|c pre IH]; rewrite search_chapter_unfold.
  - rewrite app_nil_l, match_chapter_here_path by done. eauto.
  - destruct (match_chapter_here _ _); eauto.
Qed.

(** The pattern can end an address in one way only. *)
Lemma chapter_path_trailing s slug :
  chapter_path group_char s slug → slug = trailing_slug group_char s.
Proof.
  intros (pre & tail & -> & Hne & Hrun & Htail). unfold trailing_slug.
  rewrite !rev_app_distr, <-!app_assoc.
  assert (∃ X, rev (lit "/chapter/") ++ rev pre = SLASH :: X) as [X ->]
    by by eexists.
  apply Forall_rev in Hrun.
  assert (slug = rev (rev slug)) as Hslug by by rewrite rev_involutive.
  destruct (rev slug) as [|c run]; [by subst|].
  assert (group_char c = true) as Hc by by inversion Hrun.
  assert ((c =? LF)%N = false) as HLF by (apply N.eqb_neq; congruence).
  assert ((c =? SLASH)%N = false) as Hslash by (apply N.eqb_neq; congruence).
  assert (span group_char (c :: run ++ SLASH :: X) = (c :: run, SLASH :: X))
    as Hspan by by apply (span_run (c :: run)).
  revert Hspan. generalize (span group_char). intros run_of Hspan.
  unfold chapter_endings in Htail. rewrite !elem_of_cons, elem_of_nil in Htail.
  destruct Htail as [-> | [-> | [-> | [-> | []]]]]; simpl;
    by rewrite ?HLF, ?Hslash, Hspan.
Qed.

End ChapterFacts.

Lemma chapter_path_extracted (unicode_alnum : char → bool) (url slug : str) :
  chapter_path (is_slug_char unicode_alnum) url slug →
  extract_chapter_number unicode_alnum url = slug.
Proof.
  unfold extract_chapter_number. set (group := is_slug_char unicode_alnum).
  intros Hpath.
  destruct (search_chapter_complete group eq_refl eq_refl url slug Hpath)
    as [found Hfound].
  rewrite Hfound. apply search_chapter_sound in Hfound.
  rewrite (chapter_path_trailing group eq_refl eq_refl url slug Hpath).
  by apply chapter_path_trailing.
Qed.

(** C5, as the code has it. When the address ends with [/chapter/], a
    non-empty segment of word characters (the alphanumeric characters of
    Unicode and the underscore) and hyphens, and then nothing more than an
    optional slash and an optional final line feed, the chapter number is
    that segment; when the address does not end that way, it is [N/A]. *)
Theorem chapter_number_is_trailing_slug (unicode_alnum : char → bool) (url : str) :
  (∀ slug, chapter_path (is_slug_char unicode_alnum) url slug →
           extract_chapter_number unicode_alnum url = slug)
  ∧ ((∀ slug, ¬ chapter_path (is_slug_char unicode_alnum) url slug) →
     extract_chapter_number unicode_alnum url = lit "N/A").
Proof.
  split; [apply chapter_path_extracted|].
  unfold extract_chapter_number. set (group := is_slug_char unicode_alnum).
  intros Hno. destruct (search_chapter group url) as [found|] eqn:Hfound; [|done].
  apply search_chapter_sound in Hfound. by apply Hno in Hfound.
Qed.

Lemma chapter_number_is_trailing_slug_witness :
  extract_chapter_number ascii_table
    (lit "https://wtcs.pressbooks.pub/nurseassist/chapter/8-4/")
  = lit "8-4".
Proof.
  apply (proj1 (chapter_number_is_trailing_slug ascii_table
                  (lit "https://wtcs.pressbooks.pub/nurseassist/chapter/8-4/"))).
  exists (lit "https://wtcs.pressbooks.pub/nurseassist"), (lit "/").
  split_and!; [reflexivity | done | repeat constructor |].
  unfold chapter_endings. apply elem_of_cons. right. apply elem_of_cons. by left.
Defined.

(** A letter above 127 is a word character like any other: with [233], the
    code point of e with acute accent, alphanumeric, the chapter number of
    [.../chapter/caf(233)/] is [caf(233)]. *)
Example chapter_number_with_accent (unicode_alnum : char → bool) :
  unicode_alnum 233%N = true →
  extract_chapter_number unicode_alnum (lit "https://book/chapter/caf" ++ [233%N; SLASH])
  = lit "caf" ++ [233%N].
Proof.
  intros Hletter.
  apply chapter_path_extracted.
  exists (lit "https://book"), [SLASH]. split_and!; [reflexivity | done | |].
  - repeat constructor. unfold is_slug_char, is_word, isalnum. simpl. by rewrite Hletter.
  - unfold chapter_endings. apply elem_of_cons. right. apply elem_of_cons. by left.
Qed.

(** C5 as the specification words it fails, whatever the Unicode table. In
    [.../chapter/a_b/] no segment of alphanumerics and hyphens stands between
    [/chapter/] and the end, so the chapter identifier should be [N/A]; the
    code answers [a_b], since the underscore is a word character. *)
Lemma underscore_segment_is_extracted :
  (∀ unicode_alnum slug,
     ¬ chapter_path (is_alnum_or_hyphen unicode_alnum)
         (lit "https://wtcs.pressbooks.pub/nurseassist/chapter/a_b/") slug)
  ∧ (∀ unicode_alnum,
       extract_chapter_number unicode_alnum
         (lit "https://wtcs.pressbooks.pub/nurseassist/chapter/a_b/")
       = lit "a_b")
  ∧ lit "a_b" ≠ lit "N/A".
Proof.
  split_and!; [|intros unicode_alnum; vm_compute; reflexivity|discriminate].
  intros unicode_alnum slug [found Hfound]%search_chapter_complete; [|reflexivity..].
  vm_compute in Hfound. discriminate.
Qed.

(** ** The Splitter *)

Module SplitterFacts.
Import Splitter.

Lemma cut_Some sep text segment rest :
  cut sep text = Some (segment, rest) → text = segment ++ rest ∧ segment ≠ [].
Proof.
  revert segment. induction text as [|c text IH]; intros segment; simpl.
  - destruct (remove_prefix sep []) as [r|] eqn:Hr; [|done].
    destruct (truthy sep) eqn:Hsep; [|done]. intros [= <- <-].
    apply remove_prefix_Some in Hr. by apply truthy_nonempty in Hsep.
  - destruct (remove_prefix sep (c :: text)) as [r|] eqn:Hr.
    + destruct (truthy sep) eqn:Hsep; [|done]. intros [= <- <-].
      apply remove_prefix_Some in Hr. by apply truthy_nonempty in Hsep.
    + destruct (cut sep text) as [[segment' rest']|]; [|done].
      intros [= <- <-]. destruct (IH segment' eq_refl) as [-> _]. done.
Qed.

Lemma cut_nil sep : cut sep [] = None.
Proof.
  simpl. destruct (remove_prefix sep []) as [r|] eqn:Hr; [|done].
  apply remove_prefix_Some in Hr. by destruct sep.
Qed.

(** The segments are the text, cut into pieces. *)
Lemma segments_concat fuel sep text : concat (segments fuel sep text) = text.
Proof.
  revert text. induction fuel as [|fuel IH]; intros text; simpl.
  - destruct (truthy text) eqn:Ht; simpl; [by rewrite app_nil_r|].
    by destruct text.
  - destruct (cut sep text) as [[segment rest]|] eqn:Hcut.
    + apply cut_Some in Hcut as [-> _]. simpl. by rewrite IH.
    + destruct (truthy text) eqn:Ht; simpl; [by rewrite app_nil_r|].
      by destruct text.
Qed.

(** Fuel beyond the length of the text changes nothing: [split_on] never
    stops for want of fuel. *)
Lemma segments_fuel fuel fuel' sep text :
  length text ≤ fuel → length text ≤ fuel' →
  segments fuel sep text = segments fuel' sep text.
Proof.
  revert fuel' text. induction fuel as [|fuel IH]; intros fuel' text Hfuel Hfuel'.
  - destruct text; [|simpl in Hfuel; lia].
    destruct fuel'; [done|]. cbn [segments]. by rewrite cut_nil.
  - cbn [segments]. destruct (cut sep text) as [[segment rest]|] eqn:Hcut.
    + pose proof Hcut as [-> Hne]%cut_Some.
      rewrite length_app in Hfuel, Hfuel'.
      assert (0 < length segment) by (destruct segment; [done | simpl; lia]).
      destruct fuel' as [|fuel']; [lia|]. cbn [segments]. rewrite Hcut.
      f_equal. apply IH; lia.
    + destruct fuel'; cbn [segments]; by rewrite ?Hcut.
Qed.

Lemma split_on_concat sep text : concat (split_on sep text) = text.
Proof. apply segments_concat. Qed.

Lemma length_trailing_slice n s : length (trailing_slice n s) = n `min` length s.
Proof. unfold trailing_slice. rewrite length_drop. lia. Qed.

Lemma trailing_slice_idem n s :
  trailing_slice (length (trailing_slice n s)) s = trailing_slice n s.
Proof.
  rewrite length_trailing_slice. unfold trailing_slice. f_equal. lia.
Qed.

Section Packing.
Variable chunk_size chunk_overlap : nat.

Lemma without_overlaps_app l1 l2 :
  without_overlaps (l1 ++ l2) = without_overlaps l1 ++ without_overlaps l2.
Proof. unfold without_overlaps. by rewrite fmap_app, concat_app. Qed.

Lemma without_overlaps_flush buffer :
  without_overlaps (flush buffer) = drop (lead buffer) (chunk_text buffer).
Proof.
  destruct buffer as [k [|c t]]; unfold flush, without_overlaps; simpl.
  - by rewrite drop_nil.
  - by rewrite app_nil_r.
Qed.

(** Packing loses nothing: without the overlaps, the chunks are what was
    left in the buffer followed by the segments. *)
Lemma pack_round_trip finer segs :
  (∀ segment, without_overlaps (finer segment) = segment) →
  ∀ buffer, lead buffer ≤ length (chunk_text buffer) →
  without_overlaps (pack chunk_size chunk_overlap finer buffer segs)
  = drop (lead buffer) (chunk_text buffer) ++ concat segs.
Proof.
  intros Hfiner. induction segs as [|segment rest IH]; intros buffer Hlead; simpl.
  - by rewrite without_overlaps_flush, app_nil_r.
  - destruct (chunk_size <? length segment).
    + rewrite !without_overlaps_app, without_overlaps_flush, Hfiner, IH by (simpl; lia).
      done.
    + destruct (length (chunk_text buffer) + length segment <=? chunk_size).
      * rewrite IH by (simpl; rewrite length_app; lia). simpl.
        by rewrite drop_app_le, <-app_assoc.
      * change (?c :: ?l) with ([c] ++ l) at 1.
        rewrite without_overlaps_app, IH by (simpl; rewrite length_app; lia).
        simpl. rewrite drop_app_length. unfold without_overlaps. simpl.
        by rewrite app_nil_r.
Qed.

(** C1, for any budget, overlap and separators. *)
Lemma split_chunks_round_trip separators text :
  without_overlaps (split_chunks chunk_size chunk_overlap separators text) = text.
Proof.
  revert text. induction separators as [|sep finer IH]; intros text; simpl.
  - destruct (length text <=? chunk_size); unfold without_overlaps; simpl;
      by rewrite app_nil_r.
  - destruct (length text <=? chunk_size);
      [unfold without_overlaps; simpl; by rewrite app_nil_r|].
    destruct (truthy sep && contains sep text); [|done].
    rewrite pack_round_trip by (auto; simpl; lia). simpl. apply split_on_concat.
Qed.

(** A list of chunks whose first one has no overlap can follow any chunk. *)
Lemma overlaps_shared_fresh chunks previous :
  overlaps_shared chunk_overlap None chunks →
  overlaps_shared chunk_overlap previous chunks.
Proof.
  destruct chunks as [|c rest]; [done|]. destruct previous as [p|]; [|done].
  simpl. intros [-> Hrest]. split; [|done].
  split_and!; [lia | lia |]. unfold trailing_slice.
  by rewrite take_0, Nat.sub_0_r, drop_all.
Qed.

Lemma overlaps_shared_app previous l1 l2 :
  overlaps_shared chunk_overlap previous l1 →
  overlaps_shared chunk_overlap None l2 →
  overlaps_shared chunk_overlap previous (l1 ++ l2).
Proof.
  revert previous. induction l1 as [|c l1 IH]; intros previous; simpl.
  - intros _. apply overlaps_shared_fresh.
  - intros [? ?] ?. split; [done|]. by apply IH.
Qed.

Lemma pack_overlaps_shared finer segs :
  (∀ segment, overlaps_shared chunk_overlap None (finer segment)) →
  ∀ previous buffer,
    lead buffer ≤ length (chunk_text buffer) →
    overlaps_shared chunk_overlap previous [buffer] →
    overlaps_shared chunk_overlap previous
      (pack chunk_size chunk_overlap finer buffer segs).
Proof.
  intros Hfiner. induction segs as [|segment rest IH];
    intros previous buffer Hlead Hbuffer; simpl.
  - unfold flush. by destruct (truthy (chunk_text buffer)).
  - destruct (chunk_size <? length segment).
    + apply overlaps_shared_app.
      { unfold flush. by destruct (truthy (chunk_text buffer)). }
      apply overlaps_shared_app; [apply Hfiner|].
      apply IH; simpl; [lia | done].
    + destruct (length (chunk_text buffer) + length segment <=? chunk_size).
      * apply IH; simpl; [rewrite length_app; lia|].
        simpl in Hbuffer. destruct Hbuffer as [Hbuffer _]. split; [|done].
        destruct previous as [p|]; [|done].
        destruct Hbuffer as (? & ? & <-). split_and!; [done..|].
        by rewrite take_app_le.
      * split; [apply Hbuffer|].
        apply IH; simpl; [rewrite length_app; lia|].
        split; [|done]. rewrite length_trailing_slice. split_and!; [lia | lia |].
        rewrite <-length_trailing_slice, take_app_length.
        by rewrite trailing_slice_idem.
Qed.

Lemma split_chunks_overlaps_shared separators text :
  overlaps_shared chunk_overlap None
    (split_chunks chunk_size chunk_overlap separators text).
Proof.
  revert text. induction separators as [|sep finer IH]; intros text; simpl.
  - by destruct (length text <=? chunk_size).
  - destruct (length text <=? chunk_size); [done|].
    destruct (truthy sep && contains sep text); [|done].
    apply pack_overlaps_shared; simpl; auto.
Qed.

(** C3, for any budget, overlap and separators. *)
Lemma split_text_short separators text :
  length text ≤ chunk_size →
  split_text chunk_size chunk_overlap separators text = [text].
Proof.
  intros Hshort%Nat.leb_le. unfold split_text.
  destruct separators; simpl; by rewrite Hshort.
Qed.

(** A text that comes back as one chunk comes back unchanged. *)
Lemma split_text_single separators text c :
  split_text chunk_size chunk_overlap separators text = [c] → c = text.
Proof.
  unfold split_text. intros Hsingle.
  pose proof (split_chunks_round_trip separators text) as Hround.
  pose proof (split_chunks_overlaps_shared separators text) as Hshared.
  destruct (split_chunks chunk_size chunk_overlap separators text)
    as [|[k t] [|? ?]]; try done.
  simpl in *. injection Hsingle as ->. destruct Hshared as [-> _].
  unfold without_overlaps in Hround. simpl in Hround. by rewrite app_nil_r in Hround.
Qed.

End Packing.
End SplitterFacts.

(** With a budget of 20 characters and an overlap of 5: two chunks start with
    the end of the chunk before them, and the sentence that is too long is
    split on the finer separators, down to a piece that no separator
    divides. *)
Example split_chunks_small :
  Splitter.split_chunks 20 5 Splitter.separators
    (lit "One two. Three four. Five six seven. Eight! Nine? Ten eleven twelve thirteen. End")
  = [ Splitter.Chunk 0 (lit "One two. ");
      Splitter.Chunk 5 (lit "two. Three four. ");
      Splitter.Chunk 4 (lit "ur. Five six seven. ");
      Splitter.Chunk 0 (lit "Eight! Nine? ");
      Splitter.Chunk 0 (lit "Ten eleven twelve thirteen. ");
      Splitter.Chunk 0 (lit "End") ].
Proof. vm_compute. reflexivity. Qed.

(** The splitter of the script on 1200 characters: a full chunk of 1000
    characters, then a chunk that repeats the last 150 of them. *)
Example text_splitter_two_chunks :
  (λ c, (Splitter.lead c, length (Splitter.chunk_text c)))
    <$> Splitter.text_splitter_chunks thirty_sentences
  = [(0, 1000); (150, 350)].
Proof. vm_compute. reflexivity. Qed.

(** C3. A text of at most 1000 characters comes back from the splitter as
    one chunk, which is the text. *)
Theorem splitter_short_text_is_one_chunk (text : str) :
  length text ≤ 1000 → Splitter.text_splitter text = [text].
Proof. apply SplitterFacts.split_text_short. Qed.

Lemma splitter_short_text_is_one_chunk_witness :
  Splitter.text_splitter (lit "Wash your hands. Then put on gloves.")
  = [lit "Wash your hands. Then put on gloves."].
Proof.
  apply splitter_short_text_is_one_chunk. simpl. lia.
Defined.



(** C9. A text that the splitter returns as one chunk: the splitter returns
    that chunk as it is when it is given the chunk. *)
Theorem splitter_idempotent_on_single_chunk (text c : str) :
  Splitter.text_splitter text = [c] → Splitter.text_splitter c = [c].
Proof.
  intros Hsingle.
  by rewrite (SplitterFacts.split_text_single 1000 150 Splitter.separators text c Hsingle)
    in Hsingle |- *.
Qed.

Lemma splitter_idempotent_on_single_chunk_witness :
  Splitter.text_splitter (lit "Wash your hands. Then put on gloves.")
  = [lit "Wash your hands. Then put on gloves."].
Proof.
  apply (splitter_idempotent_on_single_chunk
           (lit "Wash your hands. Then put on gloves.")).
  vm_compute. reflexivity.
Defined.

(** * Further properties of the code *)

(** ** Whitespace *)

Lemma lstrip_split s :
  ∃ spaces, s = spaces ++ lstrip s ∧ Forall (λ c, isspace c = true) spaces.
Proof.
  induction s as [|c s (spaces & Hs & Hspaces)]; simpl.
  - by exists [].
  - destruct (isspace c) eqn:Hc.
    + exists (c :: spaces). split; [by rewrite Hs at 1 | by constructor].
    + by exists [].
Qed.

Lemma lstrip_head s c : head (lstrip s) = Some c → isspace c = false.
Proof.
  induction s as [|d s IH]; simpl; [done|].
  destruct (isspace d) eqn:Hd; [done|]. simpl. by intros [= <-].
Qed.

Lemma lstrip_id s : (∀ c, head s = Some c → isspace c = false) → lstrip s = s.
Proof.
  destruct s as [|c s]; simpl; [done|]. intros H. by rewrite H.
Qed.

Lemma rstrip_split s :
  ∃ spaces, s = rstrip s ++ spaces ∧ Forall (λ c, isspace c = true) spaces.
Proof.
  unfold rstrip. destruct (lstrip_split (rev s)) as (spaces & Hs & Hspaces).
  exists (rev spaces). split; [|by apply Forall_rev].
  by rewrite <-rev_app_distr, <-Hs, rev_involutive.
Qed.

Lemma last_rev (s : str) : last (rev s) = head s.
Proof. destruct s as [|c s]; simpl; [done|]. by rewrite last_snoc. Qed.

Lemma head_rev (s : str) : head (rev s) = last s.
Proof. by rewrite <-last_rev, rev_involutive. Qed.

Lemma rstrip_last s c : last (rstrip s) = Some c → isspace c = false.
Proof. unfold rstrip. rewrite last_rev. apply lstrip_head. Qed.

Lemma rstrip_id s : (∀ c, last s = Some c → isspace c = false) → rstrip s = s.
Proof.
  intros H. unfold rstrip. rewrite lstrip_id, rev_involutive; [done|].
  intros c. rewrite head_rev. apply H.
Qed.

(** What [strip] removes is whitespace on both sides, and what it leaves
    neither starts nor ends with whitespace. *)
Lemma strip_split s :
  ∃ before after,
    s = before ++ strip s ++ after
    ∧ Forall (λ c, isspace c = true) before
    ∧ Forall (λ c, isspace c = true) after.
Proof.
  unfold strip. destruct (lstrip_split s) as (before & Hs & Hbefore).
  destruct (rstrip_split (lstrip s)) as (after & Hl & Hafter).
  exists before, after. split_and!; [|done..]. by rewrite <-Hl.
Qed.

Lemma strip_trimmed s : trimmed (strip s).
Proof.
  unfold strip. split; [|apply rstrip_last].
  intros c Hc. destruct (rstrip_split (lstrip s)) as (after & Hl & _).
  apply (lstrip_head s). rewrite Hl.
  destruct (rstrip (lstrip s)); [done|]. done.
Qed.

Lemma strip_id s : trimmed s → strip s = s.
Proof. intros [Hhead Hlast]. unfold strip. by rewrite lstrip_id, rstrip_id. Qed.

Lemma tidy_weaken b t : tidy b t → tidy false t.
Proof. destruct t as [|c t]; simpl; [done|]. intros [H ?]. split; [|done]. naive_solver. Qed.

Lemma tidy_app_l b t u : tidy b (t ++ u) → tidy b t.
Proof.
  revert b. induction t as [|c t IH]; intros b; simpl; [done|].
  intros [? ?]. split; [done|]. by eapply IH.
Qed.

Lemma tidy_app_r b t u : tidy b (t ++ u) → tidy false u.
Proof.
  revert b. induction t as [|c t IH]; intros b; simpl.
  - apply tidy_weaken.
  - intros [_ ?]. by eapply IH.
Qed.

Lemma sub_whitespace_tidy b s : tidy b (sub_whitespace b s).
Proof.
  revert b. induction s as [|c s IH]; intros b; simpl; [done|].
  destruct (isspace c) eqn:Hc.
  - destruct b; [apply IH|]. simpl. split; [done|]. apply IH.
  - simpl. rewrite Hc. split; [done|]. apply IH.
Qed.

Lemma sub_whitespace_id b t : tidy b t → sub_whitespace b t = t.
Proof.
  revert b. induction t as [|c t IH]; intros b; simpl; [done|].
  intros [Hc Ht]. destruct (isspace c) eqn:Hsp.
  - destruct (Hc eq_refl) as [-> ->]. f_equal. by apply IH.
  - f_equal. by apply IH.
Qed.

Lemma tidy_plain_spaces b t c : tidy b t → c ∈ t → isspace c = true → c = SPACE.
Proof.
  revert b. induction t as [|d t IH]; intros b; simpl; [by intros _ ?%elem_of_nil|].
  intros [Hd Ht] [-> | Hc]%elem_of_cons Hsp; [by apply Hd|]. by eapply IH.
Qed.

Lemma tidy_no_double b t pre c d post :
  tidy b t → t = pre ++ c :: d :: post → isspace c = true → isspace d = false.
Proof.
  intros Ht -> Hc. apply tidy_app_r in Ht. simpl in Ht.
  destruct Ht as (_ & Hd & _). rewrite Hc in Hd.
  destruct (isspace d); [|done]. by destruct Hd.
Qed.

Lemma cleaned_text_tidy section : tidy false (cleaned_text section).
Proof.
  unfold cleaned_text.
  destruct (strip_split (sub_whitespace false (join (lit " ") (text_parts section))))
    as (before & after & Hs & _).
  pose proof (sub_whitespace_tidy false (join (lit " ") (text_parts section))) as Ht.
  rewrite Hs in Ht. by apply tidy_app_r, tidy_app_l in Ht.
Qed.

(** The cleaned text of a page is in normal form: its only whitespace
    characters are plain spaces, no two of them are adjacent, and none stands
    at either end. *)
Theorem cleaned_text_normal_form (section : node) :
  (∀ c, c ∈ cleaned_text section → isspace c = true → c = SPACE)
  ∧ (∀ pre c d post,
       cleaned_text section = pre ++ c :: d :: post →
       isspace c = true → isspace d = false)
  ∧ trimmed (cleaned_text section).
Proof.
  split_and!.
  - intros c. apply tidy_plain_spaces with false, cleaned_text_tidy.
  - intros pre c d post. apply tidy_no_double with false, cleaned_text_tidy.
  - apply strip_trimmed.
Qed.

(** Whitespace is the whole class of [str.isspace]: non-breaking spaces and
    an em space are taken for whitespace like the plain space. *)
Example cleaned_text_of_unicode_spaces :
  cleaned_text
    (Tag (lit "section") [lit "chapter"] None
       [Tag (lit "p") [] None
          [NavigableString (lit "Wash" ++ [160%N; 160%N] ++ lit "hands." ++ [8195%N])]])
  = lit "Wash hands.".
Proof. vm_compute. reflexivity. Qed.

(** Cleaning a cleaned text again changes nothing. *)
Theorem cleaned_text_stable (section : node) :
  strip (sub_whitespace false (cleaned_text section)) = cleaned_text section.
Proof.
  rewrite sub_whitespace_id by apply cleaned_text_tidy.
  apply strip_id, strip_trimmed.
Qed.

(** A separator with a line feed in it never occurs in the cleaned text of a
    page: the first two separators of line 117 find nothing to split in what
    line 134 hands to the splitter. *)
Theorem line_feed_separator_never_occurs (section : node) (sep : str) :
  LF ∈ sep → contains sep (cleaned_text section) = false.
Proof.
  intros Hsep. apply not_true_is_false.
  intros (pre & post & Hocc)%contains_occurs.
  assert (LF ∈ cleaned_text section) as Hin.
  { rewrite Hocc, !elem_of_app. auto. }
  by apply (tidy_plain_spaces false _ LF (cleaned_text_tidy section)) in Hin.
Qed.

Lemma line_feed_separator_never_occurs_witness :
  contains [LF; LF]
    (cleaned_text
       (Tag (lit "section") [lit "chapter"] None
          [Tag (lit "p") [] None [NavigableString [LF; LF; 97%N; LF; LF; 98%N]]]))
  = false.
Proof.
  apply line_feed_separator_never_occurs. apply elem_of_cons. by left.
Defined.

(** ** What the Normalizer returns *)

Section NormalizerFacts.
Variable requests_get : str → result response.

Lemma scrape_cases (url : str) :
  (∃ what, requests_get url = Raise (OtherError what)
           ∧ scrape_and_clean_content requests_get url = Raise (OtherError what))
  ∨ (no_content requests_get url
     ∧ scrape_and_clean_content requests_get url = Return (None, None))
  ∨ (∃ section,
       has_container requests_get url section
       ∧ scrape_and_clean_content requests_get url
         = Return (Some (page_title section), Some (cleaned_text section))).
Proof.
  destruct (requests_get url) as [r|[what|what]] eqn:Hget.
  - destruct (decide (400 ≤ status_code r < 600)) as [Hstatus|Hstatus].
    + right; left. assert (no_content requests_get url) as Hno
        by by eapply error_status.
      split; [done | by apply scrape_no_content].
    + destruct (find (lit "section") (lit "chapter") (soup r)) as [section|] eqn:Hfind.
      * right; right. exists section.
        assert (has_container requests_get url section) as Hhas by by exists r.
        split; [done | by apply scrape_container].
      * right; left. assert (no_content requests_get url) as Hno
          by by eapply container_absent.
        split; [done | by apply scrape_no_content].
  - right; left. assert (no_content requests_get url) as Hno
      by by eapply fetch_raised.
    split; [done | by apply scrape_no_content].
  - left. exists what. split; [done|].
    unfold scrape_and_clean_content. by rewrite Hget.
Qed.

(** The three ways [scrape_and_clean_content] ends: it passes on an
    exception of the fetch that is no [RequestException]; it returns
    [(None, None)], for a fetch that failed or a page without container; or
    it returns the title and the cleaned text of the container, both
    present. *)
Theorem scrape_outcomes (url : str) :
  (∃ what, requests_get url = Raise (OtherError what)
           ∧ scrape_and_clean_content requests_get url = Raise (OtherError what))
  ∨ (no_content requests_get url
     ∧ scrape_and_clean_content requests_get url = Return (None, None))
  ∨ (∃ section,
       has_container requests_get url section
       ∧ scrape_and_clean_content requests_get url
         = Return (Some (page_title section), Some (cleaned_text section))).
Proof. apply scrape_cases. Qed.

(** [(None, None)] is returned only for a failed fetch or a missing
    container. *)
Lemma scrape_none_inv url t c :
  scrape_and_clean_content requests_get url = Return (t, c) →
  t = None ∨ c = None →
  no_content requests_get url.
Proof.
  intros Hscrape Hnone.
  destruct (scrape_cases url)
    as [(what & _ & H) | [[Hno _] | (section & _ & H)]]; [|done|];
    rewrite H in Hscrape; [done|]. injection Hscrape as <- <-. by destruct Hnone.
Qed.

End NormalizerFacts.

(** ** The chapter number, once more *)

Lemma chapter_path_occurs group_char url slug :
  chapter_path group_char url slug → occurs_in (lit "/chapter/") url.
Proof. intros (pre & tail & -> & _). by exists pre, (slug ++ tail). Qed.

Lemma extract_sentinel_iff (unicode_alnum : char → bool) (url : str) :
  extract_chapter_number unicode_alnum url = lit "N/A"
  ↔ ∀ slug, ¬ chapter_path (is_slug_char unicode_alnum) url slug.
Proof.
  unfold extract_chapter_number. set (group := is_slug_char unicode_alnum). split.
  - intros HNA slug Hpath.
    destruct (search_chapter_complete group eq_refl eq_refl url slug Hpath)
      as [found Hfound].
    rewrite Hfound in HNA. subst found.
    apply search_chapter_sound in Hfound as (_ & _ & _ & _ & Hrun & _).
    apply Forall_forall with (x := SLASH) in Hrun; [done|].
    apply list_elem_of_In. vm_compute. tauto.
  - intros Hno. destruct (search_chapter group url) as [found|] eqn:Hfound; [|done].
    apply search_chapter_sound in Hfound. by apply Hno in Hfound.
Qed.

(** The sentinel is never a real chapter number: [N/A] is returned exactly
    for the addresses that do not end with a chapter segment. *)
Theorem chapter_sentinel_unambiguous (unicode_alnum : char → bool) (url : str) :
  extract_chapter_number unicode_alnum url = lit "N/A"
  ↔ ∀ slug, ¬ chapter_path (is_slug_char unicode_alnum) url slug.
Proof. apply extract_sentinel_iff. Qed.

(** An address without [/chapter/] in it, a front-matter page for one, has
    the chapter number [N/A]. *)
Theorem chapter_number_without_chapter_path (unicode_alnum : char → bool) (url : str) :
  ¬ occurs_in (lit "/chapter/") url →
  extract_chapter_number unicode_alnum url = lit "N/A".
Proof.
  intros Hno. apply extract_sentinel_iff.
  intros slug Hpath.
  by apply Hno, chapter_path_occurs with (is_slug_char unicode_alnum) slug.
Qed.

Lemma chapter_number_without_chapter_path_witness :
  extract_chapter_number ascii_table
    (lit "https://wtcs.pressbooks.pub/nurseassist/front-matter/introduction/")
  = lit "N/A".
Proof.
  apply chapter_number_without_chapter_path.
  intros Hocc%contains_occurs. vm_compute in Hocc. discriminate.
Defined.

(** ** The Walker, once more *)

(** A list that holds no address twice goes through the duplicate removal
    unchanged, and removing duplicates twice is removing them once. *)
Theorem dedup_keeps_distinct (items : list location) :
  (NoDup (url <$> items) → dedup items = items)
  ∧ dedup (dedup items) = dedup items.
Proof.
  assert (∀ l, NoDup (url <$> l) → dedup l = l) as Hid.
  { induction l as [|x l IH] using rev_ind; [done|].
    rewrite fmap_app, NoDup_app. intros (Hl & Hx & _).
    rewrite dedup_snoc, IH by done. case_decide as Hin; [|done].
    exfalso. apply (Hx _ Hin). simpl. by left. }
  split; [apply Hid|]. apply Hid, dedup_NoDup.
Qed.

Lemma dedup_keeps_distinct_witness :
  dedup [ {| url := lit "https://book/chapter/1-1/"; part_title := lit "General" |};
          {| url := lit "https://book/chapter/1-2/"; part_title := lit "General" |} ]
  = [ {| url := lit "https://book/chapter/1-1/"; part_title := lit "General" |};
      {| url := lit "https://book/chapter/1-2/"; part_title := lit "General" |} ].
Proof.
  apply (proj1 (dedup_keeps_distinct _)).
  simpl. apply NoDup_cons. split; [|apply NoDup_singleton].
  intros Hin%list_elem_of_singleton. vm_compute in Hin. discriminate.
Defined.

Section WalkerMore.
Variable urljoin : str → str → result str.
Variable base_url : str.

Lemma walk_items_snoc items li st st' :
  walk_items urljoin base_url (items ++ [li]) st = Return st' →
  ∃ st0, walk_items urljoin base_url items st = Return st0
         ∧ walk_item urljoin base_url st0 li = Return st'.
Proof.
  rewrite walk_items_app.
  destruct (walk_items urljoin base_url items st) as [st0|e]; simpl; [|done].
  destruct (walk_item urljoin base_url st0 li) as [st1|e] eqn:Hitem; simpl; [|done].
  intros [= <-]. by exists st0.
Qed.

Lemma walk_item_Return st li st' :
  walk_item urljoin base_url st li = Return st' →
  ∃ us,
    resolve_all urljoin base_url (accepted_hrefs (find_all (lit "a") li)) = Return us
    ∧ st' = {| structured_urls :=
                 structured_urls st
                 ++ ((λ u, {| url := u;
                              part_title := update_part_title (current_part_title st) li |})
                       <$> us);
               current_part_title := update_part_title (current_part_title st) li |}.
Proof.
  rewrite walk_item_resolve.
  destruct (resolve_all urljoin base_url _) as [us|e]; simpl; [|done].
  intros [= <-]. by exists us.
Qed.

Lemma walk_part_titles (toc : node) (locs : list location) (loc : location) :
  walk_toc urljoin base_url toc = Return locs →
  loc ∈ locs →
  part_title loc = lit "General"
  ∨ ∃ li, li ∈ find_all_children (lit "li") toc
          ∧ has_class (lit "part") li = true
          ∧ part_text li = Some (part_title loc).
Proof.
  intros (st & Hwalk & ->)%walk_toc_Return Hloc%dedup_sound.
  revert st Hwalk loc Hloc. unfold walk.
  set (from (items : list node) (t : str) :=
         t = lit "General"
         ∨ ∃ li, li ∈ items ∧ has_class (lit "part") li = true ∧ part_text li = Some t).
  assert (∀ items items' t, from items t → from (items ++ items') t) as Hmono.
  { intros items items' t [? | (li & ? & ?)]; [by left | right].
    exists li. rewrite elem_of_app. auto. }
  enough (∀ items st,
    walk_items urljoin base_url items walk_init = Return st →
    from items (current_part_title st)
    ∧ ∀ loc, loc ∈ structured_urls st → from items (part_title loc)) as H.
  { intros st Hwalk. by apply H. }
  induction items as [|li items IH] using rev_ind; intros st.
  - intros [= <-]. split; [by left | by intros loc ?%elem_of_nil].
  - intros (st0 & [IHcur IHurls]%IH & (us & _ & ->)%walk_item_Return)%walk_items_snoc.
    assert (from (items ++ [li]) (update_part_title (current_part_title st0) li)) as Hnew.
    { unfold update_part_title.
      destruct (has_class (lit "part") li) eqn:Hpart; [|by apply Hmono].
      destruct (part_text li) as [t|] eqn:Htext; [|by apply Hmono].
      right. exists li. rewrite elem_of_app, list_elem_of_singleton. auto. }
    split; [done|]. simpl.
    intros loc [Hloc | (u & -> & _)%list_elem_of_fmap]%elem_of_app; [|done].
    by apply Hmono, IHurls.
Qed.

(** The part title of a record is no invention: it is [General] or the name
    that the header of some top-level part item gives. *)
Theorem part_titles_come_from_headers (toc : node) (locs : list location)
    (loc : location) :
  walk_toc urljoin base_url toc = Return locs →
  loc ∈ locs →
  part_title loc = lit "General"
  ∨ ∃ li, li ∈ find_all_children (lit "li") toc
          ∧ has_class (lit "part") li = true
          ∧ part_text li = Some (part_title loc).
Proof. apply walk_part_titles. Qed.

Lemma resolved_records (hrefs : list str) (added : list location) :
  resolve_all urljoin base_url hrefs = Return (url <$> added) →
  Forall2 (λ h loc, urljoin base_url h = Return (url loc)) hrefs added.
Proof. intros H%resolve_all_Return%Forall2_fmap_r. exact H. Qed.

(** While no item changes the title, every record added carries it. *)
Lemma walk_items_stable t items st st' :
  (∀ li, li ∈ items → update_part_title t li = t) →
  current_part_title st = t →
  walk_items urljoin base_url items st = Return st' →
  current_part_title st' = t
  ∧ ∃ added,
      structured_urls st' = structured_urls st ++ added
      ∧ Forall2 (λ h loc, urljoin base_url h = Return (url loc) ∧ part_title loc = t)
          (accepted_hrefs (items ≫= find_all (lit "a"))) added.
Proof.
  revert st. induction items as [|li items IH]; intros st Hitems Hcur.
  - intros [= <-]. split; [done|]. exists []. split; [by rewrite app_nil_r | constructor].
  - rewrite walk_items_cons.
    destruct (walk_item urljoin base_url st li) as [st1|e] eqn:Hitem; simpl; [|done].
    apply walk_item_Return in Hitem as (us & Hus & ->).
    assert (update_part_title (current_part_title st) li = t) as ->
      by (rewrite Hcur; apply Hitems; by left).
    intros (Ht & added & Hurls & Hadded)%IH;
      [|intros li' ?; apply Hitems; by right | done].
    split; [done|]. simpl in Hurls.
    exists (((λ u, {| url := u; part_title := t |}) <$> us) ++ added).
    split; [by rewrite Hurls, app_assoc|].
    rewrite accepted_hrefs_app. apply Forall2_app; [|exact Hadded].
    apply Forall2_fmap_r. apply resolve_all_Return in Hus.
    eapply Forall2_impl; [exact Hus|]. by intros h u ?.
Qed.

(** The links of a part item and of the items after it, up to the next item
    that gives a part name, are recorded under the name of that part: where
    the top-level items are [before], then the part item [li], then [between]
    without a part name, then [rest], the records of the walk are those of
    [before], then those of [li] and [between], one for each accepted
    reference and each with the name of [li], then those of [rest]. *)
Theorem links_carry_their_part (toc : node) (before between rest : list node)
    (li : node) (name : str) (st : walk_state) :
  find_all_children (lit "li") toc = before ++ li :: between ++ rest →
  has_class (lit "part") li = true →
  part_text li = Some name →
  (∀ li', li' ∈ between → has_class (lit "part") li' = false ∨ part_text li' = None) →
  walk urljoin base_url toc = Return st →
  ∃ earlier added later,
    structured_urls st = earlier ++ added ++ later
    ∧ Forall2 (λ h loc, urljoin base_url h = Return (url loc))
        (accepted_hrefs (before ≫= find_all (lit "a"))) earlier
    ∧ Forall2 (λ h loc, urljoin base_url h = Return (url loc) ∧ part_title loc = name)
        (accepted_hrefs ((li :: between) ≫= find_all (lit "a"))) added
    ∧ Forall2 (λ h loc, urljoin base_url h = Return (url loc))
        (accepted_hrefs (rest ≫= find_all (lit "a"))) later.
Proof.
  intros Hitems Hpart Hname Hbetween. unfold walk.
  rewrite Hitems, walk_items_app.
  pose proof (walk_items_resolve urljoin base_url before walk_init) as Hbefore.
  destruct (walk_items urljoin base_url before walk_init) as [st0|e]; [|done].
  destruct Hbefore as (earlier & Hearlier & Hbefore). simpl in Hearlier.
  rewrite result_bind_Return, walk_items_cons.
  destruct (walk_item urljoin base_url st0 li) as [st1|e] eqn:Hitem; [|done].
  rewrite result_bind_Return, walk_items_app.
  destruct (walk_items urljoin base_url between st1) as [st2|e] eqn:Hwalk; [|done].
  rewrite result_bind_Return. intros Hrest. pose proof (walk_items_resolve urljoin base_url rest st2) as Hlater.
  rewrite Hrest in Hlater. destruct Hlater as (later & Hlater & Hresolved).
  apply walk_item_Return in Hitem as (us & Hus & ->).
  assert (update_part_title (current_part_title st0) li = name) as Hnow
    by (unfold update_part_title; by rewrite Hpart, Hname).
  rewrite Hnow in Hwalk.
  apply (walk_items_stable name) in Hwalk as (_ & added & Hadded & Hall); [| |done].
  - simpl in Hadded.
    exists earlier, (((λ u, {| url := u; part_title := name |}) <$> us) ++ added), later.
    split_and!.
    + by rewrite Hlater, Hadded, Hearlier, <-!app_assoc.
    + by apply resolved_records.
    + rewrite bind_cons, accepted_hrefs_app. apply Forall2_app; [|done].
      apply Forall2_fmap_r. apply resolve_all_Return in Hus.
      eapply Forall2_impl; [exact Hus|]. by intros h u ?.
    + by apply resolved_records.
  - intros li' Hli. unfold update_part_title.
    destruct (Hbetween li' Hli) as [-> | ->]; [done|].
    by destruct (has_class (lit "part") li').
Qed.

(** The Walker returns the empty list exactly when no link below a top-level
    item passes the test of line 42. *)
Theorem walker_empty_iff_no_link (toc : node) :
  walk_toc urljoin base_url toc = Return []
  ↔ ∀ li a h, li ∈ find_all_children (lit "li") toc → a ∈ find_all (lit "a") li →
              get_href a = Some h → accepted_href (Some h) = false.
Proof.
  split.
  - intros Hempty li a h Hli Ha Hh. apply not_true_is_false. intros Hacc.
    assert (h ∈ accepted_hrefs (toc_links toc)) as Hin.
    { apply elem_of_accepted_hrefs. exists a. split; [|done].
      apply elem_of_toc_links. by exists li. }
    pose proof Hempty as (st & Hwalk%walk_candidates & Hnone)%walk_toc_Return.
    destruct (structured_urls st) as [|r cands] eqn:Hcands.
    + apply resolve_all_Return, Forall2_nil_inv_r in Hwalk.
      rewrite Hwalk in Hin. by apply elem_of_nil in Hin.
    + assert (url r ∈ url <$> dedup (r :: cands)) as Hr
        by (apply dedup_complete; left).
      rewrite <-Hnone in Hr. by apply elem_of_nil in Hr.
  - intros Hnone.
    assert (accepted_hrefs (toc_links toc) = []) as Hrefs.
    { destruct (accepted_hrefs (toc_links toc)) as [|h hrefs] eqn:Hrefs; [done|].
      assert (h ∈ accepted_hrefs (toc_links toc)) as Hin by (rewrite Hrefs; left).
      apply elem_of_accepted_hrefs in Hin as (a & (li & Hli & Ha)%elem_of_toc_links & Hh & Hacc).
      by rewrite (Hnone li a h Hli Ha Hh) in Hacc. }
    unfold walk_toc, walk.
    pose proof (walk_items_resolve urljoin base_url (find_all_children (lit "li") toc) walk_init) as H.
    fold (toc_links toc) in H. rewrite Hrefs in H.
    destruct (walk_items urljoin base_url _ walk_init) as [st|e]; simpl; [|done].
    destruct H as (added & -> & H). simpl in H.
    injection H as H. symmetry in H. apply fmap_nil_inv in H as ->. done.
Qed.

End WalkerMore.

Lemma part_titles_come_from_headers_witness :
  walk_toc urljoin_absolute site_url two_parts_toc = Return two_parts_locations
  ∧ ∀ loc, loc ∈ two_parts_locations →
      part_title loc = lit "General"
      ∨ ∃ li, li ∈ find_all_children (lit "li") two_parts_toc
              ∧ has_class (lit "part") li = true
              ∧ part_text li = Some (part_title loc).
Proof.
  assert (walk_toc urljoin_absolute site_url two_parts_toc = Return two_parts_locations)
    as Hwalk by (vm_compute; reflexivity).
  split; [done|]. intros loc.
  by apply (part_titles_come_from_headers urljoin_absolute site_url two_parts_toc
              two_parts_locations).
Defined.

Lemma links_carry_their_part_witness :
  walk urljoin_absolute site_url three_parts_toc
  = Return {| structured_urls := three_parts_candidates;
              current_part_title := lit "Care" |}
  ∧ ∃ earlier added later,
    three_parts_candidates = earlier ++ added ++ later
    ∧ Forall2 (λ h loc, urljoin_absolute site_url h = Return (url loc))
        (accepted_hrefs
           ([Tag (lit "li") [] None [link (lit "https://book/front-matter/intro/")]]
              ≫= find_all (lit "a")))
        earlier
    ∧ Forall2 (λ h loc, urljoin_absolute site_url h = Return (url loc)
                        ∧ part_title loc = lit "Fundamentals")
        (accepted_hrefs
           ((part_item (lit "Fundamentals") [link (lit "https://book/chapter/1-1/")]
             :: [Tag (lit "li") [] None [link (lit "https://book/chapter/1-2/")]])
              ≫= find_all (lit "a")))
        added
    ∧ Forall2 (λ h loc, urljoin_absolute site_url h = Return (url loc))
        (accepted_hrefs
           ([part_item (lit "Care") [link (lit "https://book/chapter/2-1/")]]
              ≫= find_all (lit "a")))
        later.
Proof.
  assert (walk urljoin_absolute site_url three_parts_toc
          = Return {| structured_urls := three_parts_candidates;
                      current_part_title := lit "Care" |}) as Hwalk
    by (vm_compute; reflexivity).
  split; [done|].
  apply (links_carry_their_part urljoin_absolute site_url three_parts_toc
           [Tag (lit "li") [] None [link (lit "https://book/front-matter/intro/")]]
           [Tag (lit "li") [] None [link (lit "https://book/chapter/1-2/")]]
           [part_item (lit "Care") [link (lit "https://book/chapter/2-1/")]]
           (part_item (lit "Fundamentals") [link (lit "https://book/chapter/1-1/")])
           (lit "Fundamentals")
           {| structured_urls := three_parts_candidates;
              current_part_title := lit "Care" |});
    [vm_compute; reflexivity..| |done].
  intros li' ->%list_elem_of_singleton. by left.
Defined.

(** ** The run over the locations *)

Section RunFacts.
Variable unicode_alnum : char → bool.
Variable urljoin : str → str → result str.
Variable requests_get : str → result response.
Variable split_text : str → list str.

(** A seed page that cannot be fetched, that the server refuses, or that has
    no [ol.toc], ends phase 1 with the empty list, and [main] leaves before
    the loop. *)
Theorem discovery_failure_ends_run (base_url : str) :
  (∃ what, requests_get base_url = Raise (RequestException what))
  ∨ (∃ r, requests_get base_url = Return r ∧ 400 ≤ status_code r < 600)
  ∨ (∃ r, requests_get base_url = Return r
          ∧ ¬ (400 ≤ status_code r < 600)
          ∧ find (lit "ol") (lit "toc") (soup r) = None) →
  get_structured_urls urljoin base_url requests_get = Return []
  ∧ main unicode_alnum urljoin requests_get split_text base_url = Return None.
Proof.
  intros Hfail.
  assert (get_structured_urls urljoin base_url requests_get = Return []) as Hnone.
  { unfold get_structured_urls.
    destruct Hfail as [[what ->] | [(r & -> & Hstatus) | (r & -> & Hstatus & Htoc)]];
      simpl; [done | by rewrite status_error_raises |].
    by rewrite status_fine_returns, Htoc. }
  split; [done|]. unfold main. by rewrite Hnone.
Qed.

Lemma process_location_records all_chunks url_info :
  process_location unicode_alnum requests_get split_text all_chunks url_info
  = match scrape_and_clean_content requests_get (url url_info) with
    | Return _ =>
        Return (all_chunks ++ location_records unicode_alnum requests_get split_text url_info)
    | Raise e => Raise e
    end.
Proof.
  unfold process_location, location_records.
  destruct (scrape_and_clean_content requests_get (url url_info))
    as [[t c]|e]; simpl; [|done].
  destruct (falsy c); simpl; by rewrite ?app_nil_r.
Qed.

Lemma main_loop_cons all_chunks url_info rest :
  main_loop unicode_alnum requests_get split_text all_chunks (url_info :: rest)
  = process_location unicode_alnum requests_get split_text all_chunks url_info
    ≫= λ all_chunks', main_loop unicode_alnum requests_get split_text all_chunks' rest.
Proof. done. Qed.

(** The run from a given chunk list is the run from the empty list, put
    after it. *)
Lemma main_loop_from all_chunks locs :
  main_loop unicode_alnum requests_get split_text all_chunks locs
  = added ← main_loop unicode_alnum requests_get split_text [] locs; Return (all_chunks ++ added).
Proof.
  revert all_chunks. induction locs as [|loc rest IH]; intros all_chunks.
  - simpl. by rewrite app_nil_r.
  - rewrite !main_loop_cons, !process_location_records.
    destruct (scrape_and_clean_content requests_get (url loc)); simpl; [|done].
    rewrite IH, (IH (location_records _ _ _ _)).
    destruct (main_loop unicode_alnum requests_get split_text [] rest); simpl; [|done].
    by rewrite app_assoc.
Qed.

(** The chunk list only grows, and the run over a list of locations is the
    run over its first part followed by the run over the rest: the records
    of the locations come in the order of the locations. *)
Theorem main_loop_concatenates (all_chunks : list chunk_record)
    (first rest : list location) :
  main_loop unicode_alnum requests_get split_text all_chunks (first ++ rest)
  = from_first ← main_loop unicode_alnum requests_get split_text all_chunks first;
    from_rest ← main_loop unicode_alnum requests_get split_text [] rest;
    Return (from_first ++ from_rest).
Proof.
  revert all_chunks. induction first as [|loc first IH]; intros all_chunks.
  - simpl. apply main_loop_from.
  - rewrite <-app_comm_cons, !main_loop_cons.
    destruct (process_location unicode_alnum requests_get split_text all_chunks loc); simpl; [|done].
    apply IH.
Qed.

(** A run that returns has put together what each location adds. *)
Lemma main_loop_records locs out :
  main_loop unicode_alnum requests_get split_text [] locs = Return out →
  out = locs ≫= location_records unicode_alnum requests_get split_text.
Proof.
  revert out. induction locs as [|loc rest IH]; intros out.
  - by intros [= <-].
  - rewrite main_loop_cons, process_location_records.
    destruct (scrape_and_clean_content requests_get (url loc)); simpl; [|done].
    rewrite main_loop_from.
    destruct (main_loop unicode_alnum requests_get split_text [] rest) as [added|]; simpl; [|done].
    intros [= <-]. simpl. f_equal. by apply IH.
Qed.

(** The run raises exactly when the fetch of some location raises an
    exception that is no [RequestException]. *)
Theorem main_loop_raises_iff (all_chunks : list chunk_record) (locs : list location) :
  (∃ e, main_loop unicode_alnum requests_get split_text all_chunks locs = Raise e)
  ↔ ∃ loc what, loc ∈ locs ∧ requests_get (url loc) = Raise (OtherError what).
Proof.
  revert all_chunks. induction locs as [|loc rest IH]; intros all_chunks.
  - split; [by intros [e ?] | by intros (? & ? & ?%elem_of_nil & _)].
  - rewrite main_loop_cons, process_location_records.
    destruct (scrape_cases requests_get (url loc))
      as [(what & Hget & ->) | [[Hno ->] | (section & Hhas & ->)]]; simpl.
    + split; [|by eauto]. intros _. exists loc, what. split; [by left | done].
    + rewrite IH. split.
      * intros (loc' & what & ? & ?). exists loc', what. split; [by right | done].
      * intros (loc' & what & [-> | ?]%elem_of_cons & Hget); [|by eauto].
        exfalso. destruct Hno as [w H | r H _ | r H _ _]; congruence.
    + rewrite IH. split.
      * intros (loc' & what & ? & ?). exists loc', what. split; [by right | done].
      * intros (loc' & what & [-> | ?]%elem_of_cons & Hget); [|by eauto].
        exfalso. destruct Hhas as (r & H & _). congruence.
Qed.

(** Where every record of a run comes from: a location of the list whose
    page has a container with a non-empty cleaned text, and one chunk of that
    text. The record carries the chunk, the part title and the address of
    the location, the chapter number of the address, the title of the page
    and the position of the chunk as its id. *)
Theorem records_come_from_locations (locs : list location)
    (out : list chunk_record) (record : chunk_record) :
  main_loop unicode_alnum requests_get split_text [] locs = Return out →
  (record ∈ out ↔
   ∃ loc section i chunk,
     loc ∈ locs
     ∧ has_container requests_get (url loc) section
     ∧ cleaned_text section ≠ []
     ∧ split_text (cleaned_text section) !! i = Some chunk
     ∧ record
       = {| page_content := chunk;
            chunk_metadata :=
              {| md_part_title := part_title loc;
                 chapter_number := extract_chapter_number unicode_alnum (url loc);
                 title := Some (page_title section);
                 source_url := url loc;
                 chunk_id := lit "chunk_" ++ lit (pretty i) |} |}).
Proof.
  intros ->%main_loop_records. rewrite list_elem_of_bind.
  assert (∀ loc,
    record ∈ location_records unicode_alnum requests_get split_text loc ↔
    ∃ section i chunk,
      has_container requests_get (url loc) section
      ∧ cleaned_text section ≠ []
      ∧ split_text (cleaned_text section) !! i = Some chunk
      ∧ record
        = {| page_content := chunk;
             chunk_metadata :=
               {| md_part_title := part_title loc;
                  chapter_number := extract_chapter_number unicode_alnum (url loc);
                  title := Some (page_title section);
                  source_url := url loc;
                  chunk_id := lit "chunk_" ++ lit (pretty i) |} |}) as Hloc.
  { intros loc. unfold location_records.
    destruct (scrape_cases requests_get (url loc))
      as [(what & Hget & ->) | [[Hno ->] | (section & Hhas & ->)]]; simpl.
    - split; [by intros ?%elem_of_nil|].
      intros (? & ? & ? & (r & H & _) & _). congruence.
    - split; [by intros ?%elem_of_nil|].
      intros (? & ? & ? & (r & H & Hstatus & Hfind) & _).
      destruct Hno as [w H' | r' H' ? | r' H' ? Hnone]; [congruence| |];
        rewrite H in H'; injection H' as <-; [done | congruence].
    - assert (∀ section', has_container requests_get (url loc) section' →
                          section' = section) as Hsame.
      { intros section' (r' & H' & _ & Hfind'). destruct Hhas as (r & H & _ & Hfind).
        congruence. }
      destruct (cleaned_text section) as [|c0 text] eqn:Htext; simpl.
      + split; [by intros ?%elem_of_nil|].
        intros (section' & ? & ? & Hhas' & Hne & _).
        apply Hsame in Hhas' as ->. by rewrite Htext in Hne.
      + unfold chunk_records. rewrite elem_of_lookup_imap. split.
        * intros (i & chunk & -> & Hi). exists section, i, chunk.
          by rewrite Htext.
        * intros (section' & i & chunk & Hhas' & _ & Hi & ->).
          apply Hsame in Hhas' as ->. rewrite Htext in Hi.
          by exists i, chunk. }
  split.
  - intros (loc & (section & i & chunk & ?)%Hloc & ?).
    by exists loc, section, i, chunk.
  - intros (loc & section & i & chunk & ? & ?). exists loc. split; [|done].
    apply Hloc. by exists section, i, chunk.
Qed.

End RunFacts.

Lemma discovery_failure_ends_run_witness :
  get_structured_urls urljoin_absolute site_url unreachable = Return []
  ∧ main ascii_table urljoin_absolute unreachable one_chunk site_url = Return None.
Proof.
  apply discovery_failure_ends_run. left. by eexists.
Defined.

Lemma records_come_from_locations_witness :
  ∃ loc section i chunk,
    loc ∈ [sample_location]
    ∧ has_container (serve page_with_text) (url loc) section
    ∧ cleaned_text section ≠ []
    ∧ one_chunk (cleaned_text section) !! i = Some chunk
    ∧ sample_record
      = {| page_content := chunk;
           chunk_metadata :=
             {| md_part_title := part_title loc;
                chapter_number := extract_chapter_number ascii_table (url loc);
                title := Some (page_title section);
                source_url := url loc;
                chunk_id := lit "chunk_" ++ lit (pretty i) |} |}.
Proof.
  apply (proj1 (records_come_from_locations ascii_table (serve page_with_text) one_chunk
                  [sample_location] [sample_record] sample_record eq_refl)).
  by left.
Defined.

(** ** Record keys *)

Lemma lit_inj s1 s2 : lit s1 = lit s2 → s1 = s2.
Proof.
  unfold lit. intros H.
  assert (Inj (=) (=) N_of_ascii) as Hinj.
  { intros a b Hab. by rewrite <-(ascii_N_embedding a), Hab, ascii_N_embedding. }
  apply (inj (fmap N_of_ascii)) in H.
  by rewrite <-(string_of_list_ascii_of_string s1), H, string_of_list_ascii_of_string.
Qed.

Section KeyFacts.
Variable unicode_alnum : char → bool.
Variable requests_get : str → result response.
Variable split_text : str → list str.

Lemma location_records_source loc record :
  record ∈ location_records unicode_alnum requests_get split_text loc →
  source_url (chunk_metadata record) = url loc.
Proof.
  unfold location_records.
  destruct (scrape_and_clean_content requests_get (url loc)) as [[t c]|e];
    [|by intros ?%elem_of_nil].
  destruct (falsy c); [by intros ?%elem_of_nil|].
  unfold chunk_records. by intros (i & chunk & -> & _)%elem_of_lookup_imap.
Qed.

Lemma chunk_records_keys loc t chunks :
  NoDup (record_key <$> chunk_records unicode_alnum loc t chunks).
Proof.
  unfold chunk_records. rewrite fmap_imap.
  rewrite (imap_ext _ (λ i _, (url loc, lit "chunk_" ++ lit (pretty i)))) by done.
  rewrite (imap_seq_0 chunks (λ i, (url loc, lit "chunk_" ++ lit (pretty i)))).
  apply NoDup_fmap_2_strong; [|apply NoDup_seq].
  intros i j _ _ [= Hij%lit_inj]. by apply (inj pretty) in Hij.
Qed.

Lemma main_loop_keys (locs : list location) (out : list chunk_record) :
  main_loop unicode_alnum requests_get split_text [] locs = Return out →
  NoDup (url <$> locs) →
  NoDup (record_key <$> out).
Proof.
  intros ->%main_loop_records. induction locs as [|loc rest IH]; intros Hurls.
  - constructor.
  - apply NoDup_cons in Hurls as [Hloc Hrest]. simpl.
    rewrite fmap_app. apply NoDup_app. split_and!.
    + unfold location_records.
      destruct (scrape_and_clean_content requests_get (url loc)) as [[t c]|e];
        [|constructor].
      destruct (falsy c); [constructor | apply chunk_records_keys].
    + intros key (record & -> & Hrecord)%list_elem_of_fmap
        (record' & Hkey & (loc' & Hrecord' & Hloc')%list_elem_of_bind)%list_elem_of_fmap.
      apply location_records_source in Hrecord, Hrecord'.
      apply Hloc. unfold record_key in Hkey. injection Hkey as Hsource _.
      apply list_elem_of_fmap. exists loc'. split; [congruence | done].
    + by apply IH.
Qed.

(** In the list that a run returns, no two records have the same page and
    the same chunk id, provided the locations have distinct addresses. *)
Theorem record_keys_distinct (locs : list location) (out : list chunk_record) :
  main_loop unicode_alnum requests_get split_text [] locs = Return out →
  NoDup (url <$> locs) →
  NoDup (record_key <$> out).
Proof. apply main_loop_keys. Qed.

(** Phase 1 never returns an address twice. *)
Lemma get_structured_urls_NoDup urljoin base_url locs :
  get_structured_urls urljoin base_url requests_get = Return locs →
  NoDup (url <$> locs).
Proof.
  unfold get_structured_urls.
  destruct (requests_get base_url ≫= raise_for_status) as [r|[what|what]];
    [|by intros [= <-]; constructor | done].
  destruct (find _ _ (soup r)) as [toc|]; [|intros [= <-]; constructor].
  intros (st & _ & ->)%walk_toc_Return. apply dedup_NoDup.
Qed.

(** What [main] hands over to be saved holds no two records with the same
    page and the same chunk id: the addresses of phase 1 are distinct and
    the chunk ids of one page are. *)
Theorem main_output_keys_distinct (urljoin : str → str → result str) (base_url : str)
    (out : list chunk_record) :
  main unicode_alnum urljoin requests_get split_text base_url = Return (Some out) →
  NoDup (record_key <$> out).
Proof.
  unfold main.
  destruct (get_structured_urls urljoin base_url requests_get)
    as [[|loc locs]|e] eqn:Hlocs; [done| |done].
  change (Return (loc :: locs) ≫= _)
    with (main_loop unicode_alnum requests_get split_text [] (loc :: locs)
          ≫= λ all_chunks, Return (Some all_chunks)).
  destruct (main_loop unicode_alnum requests_get split_text [] (loc :: locs)) as [out'|e] eqn:Hrun;
    [|done].
  intros [= <-]. apply main_loop_keys with (loc :: locs); [done|].
  by apply get_structured_urls_NoDup with urljoin base_url.
Qed.

End KeyFacts.

Lemma record_keys_distinct_witness :
  main_loop ascii_table (serve page_with_text) halves [] two_chapter_locations
  = Return two_chapter_records
  ∧ NoDup (record_key <$> two_chapter_records).
Proof.
  assert (main_loop ascii_table (serve page_with_text) halves [] two_chapter_locations
          = Return two_chapter_records) as Hrun by (vm_compute; reflexivity).
  split; [done|].
  apply (record_keys_distinct ascii_table (serve page_with_text) halves
           two_chapter_locations two_chapter_records Hrun).
  apply NoDup_cons. split; [|apply NoDup_singleton].
  intros Hin%list_elem_of_singleton. vm_compute in Hin. discriminate.
Defined.

(** ** Titles *)

Lemma join_cons2 sep p q rest :
  join sep (p :: q :: rest) = p ++ sep ++ join sep (q :: rest).
Proof. done. Qed.

Lemma join_nonempty sep p rest : p ≠ [] → join sep (p :: rest) ≠ [].
Proof.
  intros Hp. destruct rest as [|q rest]; [done|].
  rewrite join_cons2. by destruct p.
Qed.

Lemma join_trimmed sep parts :
  Forall (λ p, p ≠ [] ∧ trimmed p) parts → trimmed (join sep parts).
Proof.
  induction 1 as [|p parts [Hp [Hhead Hlast]] Hparts IH]; [by split|].
  destruct parts as [|q rest]; [by split|].
  rewrite join_cons2. split.
  - intros c. destruct p as [|c' p]; [done|]. apply Hhead.
  - intros c. rewrite app_assoc, last_app.
    apply Forall_cons in Hparts as [[Hq _] _].
    pose proof (join_nonempty sep q rest Hq) as Hne.
    destruct (last (join sep (q :: rest))) as [c'|] eqn:Hl.
    + intros [= <-]. by apply IH.
    + by apply last_None in Hl.
Qed.

(** The text that [get_text(strip=True)] returns neither starts nor ends
    with whitespace, whatever the separator. *)
Lemma get_text_trimmed sep n : trimmed (get_text sep n).
Proof.
  unfold get_text. apply join_trimmed, Forall_forall.
  intros p [Hin Hp]%list_elem_of_In%filter_In.
  apply truthy_nonempty in Hp. split; [done|].
  apply in_map_iff in Hin as (s & <- & _). apply strip_trimmed.
Qed.

(** The titles that go into the metadata carry no whitespace around them:
    neither the title of a page nor the part title of a record of the
    Walker. *)
Theorem metadata_titles_trimmed :
  (∀ section, trimmed (page_title section))
  ∧ (∀ urljoin base_url toc locs loc,
       walk_toc urljoin base_url toc = Return locs →
       loc ∈ locs → trimmed (part_title loc)).
Proof.
  split.
  - intros section. unfold page_title.
    destruct (find _ _ section); [apply get_text_trimmed|].
    split; intros c; vm_compute; by intros [= <-].
  - intros urljoin base_url toc locs loc Hlocs Hloc.
    destruct (walk_part_titles _ _ _ _ _ Hlocs Hloc) as [-> | (li & _ & _ & Htext)].
    + split; intros c; vm_compute; by intros [= <-].
    + unfold part_text in Htext.
      destruct (find _ _ li) as [header|]; [|done].
      destruct (find _ _ header) as [span|]; [|done].
      injection Htext as <-. apply get_text_trimmed.
Qed.

(** ** Nesting *)

Lemma node_nested_ind (P : node → Prop) :
  (∀ text, P (NavigableString text)) →
  (∀ name classes href contents,
     Forall P contents → P (Tag name classes href contents)) →
  ∀ n, P n.
Proof.
  intros Hstring Htag. fix IH 1. intros [text | name classes href contents].
  - apply Hstring.
  - apply Htag. induction contents as [|c contents IHc]; constructor; [apply IH | done].
Qed.

Lemma descendants_trans n d e :
  d ∈ descendants n → e ∈ descendants d → e ∈ descendants n.
Proof.
  revert d e. induction n as [text | name classes href contents IH] using node_nested_ind;
    intros d e; [by intros ?%elem_of_nil|].
  rewrite descendants_Tag, !list_elem_of_bind.
  intros (c & [-> | Hd]%elem_of_cons & Hc) He; exists c; split; try done;
    apply elem_of_cons; right; [done|].
  rewrite Forall_forall in IH. by eapply IH.
Qed.

Lemma find_all_In name n a :
  a ∈ find_all name n ↔ a ∈ descendants n ∧ is_tag name a = true.
Proof. unfold find_all. by rewrite !list_elem_of_In, filter_In. Qed.

Lemma find_Some name cls n d :
  find name cls n = Some d →
  d ∈ descendants n ∧ is_tag name d = true ∧ has_class cls d = true.
Proof.
  unfold find. intros Hhead.
  assert (In d (List.filter (λ d, is_tag name d && has_class cls d) (descendants n)))
    as [Hd [? ?]%andb_true_iff]%filter_In.
  { destruct (List.filter _ _); [done|]. injection Hhead as ->. by left. }
  by rewrite list_elem_of_In.
Qed.

(** [find_all] looks at every depth: what it finds below a descendant of a
    node, it finds below the node. *)
Lemma find_all_nested (name : str) (n d a : node) :
  d ∈ descendants n → a ∈ find_all name d → a ∈ find_all name n.
Proof.
  rewrite !find_all_In. intros Hd [Ha ?]. split; [|done].
  by apply descendants_trans with d.
Qed.

(** A link that passes the test of line 42 is collected however deep it
    stands below its top-level item, in a nested list for one: when the
    Walker returns, [urljoin] gave an address for the reference of the link,
    and that address is in the list of the Walker. *)
Theorem nested_links_are_collected (urljoin : str → str → result str) (base_url : str)
    (toc li nested a : node) (h : str) (locs : list location) :
  li ∈ find_all_children (lit "li") toc →
  nested ∈ descendants li →
  a ∈ find_all (lit "a") nested →
  get_href a = Some h →
  accepted_href (Some h) = true →
  walk_toc urljoin base_url toc = Return locs →
  ∃ u, urljoin base_url h = Return u ∧ u ∈ url <$> locs.
Proof.
  intros Hli Hnested Ha Hh Hacc Hlocs.
  assert (h ∈ accepted_hrefs (toc_links toc)) as Hin.
  { apply elem_of_accepted_hrefs. exists a. split; [|done].
    apply elem_of_toc_links. exists li. split; [done|].
    by apply find_all_nested with nested. }
  destruct (urljoin base_url h) as [u|e] eqn:Hu.
  - exists u. split; [done|]. apply (walk_toc_urls _ _ _ _ _ Hlocs). by exists h.
  - destruct (resolve_all_raises _ _ _ _ _ Hin Hu) as [e' He'].
    apply walk_toc_Raise in He'. congruence.
Qed.

Lemma nested_links_are_collected_witness :
  walk_toc urljoin_absolute site_url nested_toc
  = Return [ {| url := lit "https://book/chapter/1-1/"; part_title := lit "General" |} ]
  ∧ ∃ u, urljoin_absolute site_url (lit "https://book/chapter/1-1/") = Return u
         ∧ u ∈ url <$> [ {| url := lit "https://book/chapter/1-1/";
                            part_title := lit "General" |} ].
Proof.
  assert (walk_toc urljoin_absolute site_url nested_toc
          = Return [ {| url := lit "https://book/chapter/1-1/";
                        part_title := lit "General" |} ]) as Hwalk
    by (vm_compute; reflexivity).
  split; [done|].
  apply (nested_links_are_collected urljoin_absolute site_url nested_toc
           (Tag (lit "li") [] None
              [Tag (lit "ol") [] None
                 [Tag (lit "li") [] None [link (lit "https://book/chapter/1-1/")]]])
           (Tag (lit "li") [] None [link (lit "https://book/chapter/1-1/")])
           (link (lit "https://book/chapter/1-1/"))).
  - vm_compute. apply elem_of_cons. by left.
  - vm_compute. apply elem_of_cons. right. apply elem_of_cons. by left.
  - vm_compute. apply elem_of_cons. by left.
  - reflexivity.
  - vm_compute. reflexivity.
  - done.
Defined.

(** A paragraph inside the learning-objectives block is read twice: its
    strings are among those of the block, which make the first text part,
    and the paragraph is also one of the paragraphs that follow. *)
Theorem objectives_paragraph_is_read_twice (section objectives p : node) :
  find (lit "div") (lit "textbox--learning-objectives") section = Some objectives →
  p ∈ find_all (lit "p") objectives →
  text_parts section
  = get_text (lit " ") objectives
    :: map (get_text (lit " ")) (find_all (lit "p") section)
  ∧ p ∈ find_all (lit "p") section
  ∧ (∀ s, s ∈ strings p → s ∈ strings objectives).
Proof.
  intros Hfind Hp. pose proof Hfind as (Hin & Htag & _)%find_Some.
  split_and!.
  - unfold text_parts. by rewrite Hfind.
  - apply find_all_In in Hp as [Hp Hptag]. apply find_all_In. split; [|done].
    by apply descendants_trans with objectives.
  - apply find_all_In in Hp as [Hp Hptag].
    destruct objectives as [|oname ocls ohref ocs]; [done|].
    destruct p as [|pname pcls phref pcs]; [done|].
    unfold strings. intros s (d & Hd & Hs)%list_elem_of_omap.
    apply list_elem_of_omap. exists d. split; [|done].
    by apply descendants_trans with (Tag pname pcls phref pcs).
Qed.

Lemma objectives_paragraph_is_read_twice_witness :
  text_parts
    (Tag (lit "section") [lit "chapter"] None
       [Tag (lit "div") [lit "textbox--learning-objectives"] None
          [Tag (lit "p") [] None [NavigableString (lit "Name the steps.")]]])
  = [lit "Name the steps."; lit "Name the steps."].
Proof.
  destruct (objectives_paragraph_is_read_twice
    (Tag (lit "section") [lit "chapter"] None
       [Tag (lit "div") [lit "textbox--learning-objectives"] None
          [Tag (lit "p") [] None [NavigableString (lit "Name the steps.")]]])
    (Tag (lit "div") [lit "textbox--learning-objectives"] None
       [Tag (lit "p") [] None [NavigableString (lit "Name the steps.")]])
    (Tag (lit "p") [] None [NavigableString (lit "Name the steps.")]))
    as (Hparts & _).
  - vm_compute. reflexivity.
  - vm_compute. apply elem_of_cons. by left.
  - rewrite Hparts. vm_compute. reflexivity.
Defined.

Lemma main_output_keys_distinct_witness :
  main ascii_table urljoin_absolute two_chapter_site halves site_url
  = Return (Some two_chapter_records)
  ∧ NoDup (record_key <$> two_chapter_records).
Proof.
  assert (main ascii_table urljoin_absolute two_chapter_site halves site_url
          = Return (Some two_chapter_records)) as Hrun by (vm_compute; reflexivity).
  split; [done|].
  by apply (main_output_keys_distinct ascii_table two_chapter_site halves
              urljoin_absolute site_url).
Defined.
